(** * sisl: plugs (hook interception) and mixing helpers

    A shallow embedding of [sisl/_plugs.py] (class [PlugsMixin] and the
    [combi_hook] closure it builds) and of [sisl/mixing/base.py] (classes
    [Metric] and [History]), followed by the properties established about
    them.

    Python objects are mutable and shared; the embedding makes this
    explicit.  Receivers of hooked calls live in a heap indexed by
    locations, a host object is the name space that
    [object.__getattribute__] consults, and exceptions are values of
    [result]. *)

From stdpp Require Import base option list gmap strings sorting.
From Stdlib Require Import ZArith Lia.

Set Default Proof Using "Type".

(** ** Exceptions and the two monads used throughout *)

Inductive exn : Type :=
  | AttributeError
  | KeyError
  | IndexError
  | ValueError
  | TypeError
  | RecursionError
  | OverflowError
  | OtherError (tag : string).

Inductive result (A : Type) : Type :=
  | Ok (a : A)
  | Raise (e : exn).
Arguments Ok {A} a.
Arguments Raise {A} e.

Global Instance exn_eq_dec : EqDecision exn.
Proof. solve_decision. Defined.

Global Instance result_eq_dec `{EqDecision A} : EqDecision (result A).
Proof. solve_decision. Defined.

Definition rbind {A B} (m : result A) (k : A → result B) : result B :=
  match m with
  | Ok a => k a
  | Raise e => Raise e
  end.

(** A computation that reads and updates a state [S] and may raise.  The
    state survives an exception: whatever was mutated before the [raise]
    stays mutated. *)
Definition M (S A : Type) : Type := S → result A * S.

Definition ret {S A} (a : A) : M S A := λ s, (Ok a, s).

Definition bind {S A B} (m : M S A) (k : A → M S B) : M S B :=
  λ s, match m s with
       | (Ok a, s') => k a s'
       | (Raise e, s') => (Raise e, s')
       end.

Definition throw {S A} (e : exn) : M S A := λ s, (Raise e, s).

Declare Scope py_scope.
Delimit Scope py_scope with py.
Notation "'let!' x ':=' m 'in' k" := (bind m (λ x, k))
  (at level 10, x name, m at level 100, k at level 200) : py_scope.
Notation "'try!' x ':=' m 'in' k" := (rbind m (λ x, k))
  (at level 10, x name, m at level 100, k at level 200) : py_scope.
Open Scope py_scope.

(** ** Python values that travel as arguments *)

Abbreviation loc := nat.

Inductive pyval : Type :=
  | VNone
  | VBool (b : bool)
  | VInt (z : Z)
  | VStr (s : string)
  | VRef (l : loc).

Global Instance pyval_eq_dec : EqDecision pyval.
Proof. solve_decision. Defined.

(** Truth value testing, as [if not inplace] performs it. *)
Definition truthy (v : pyval) : bool :=
  match v with
  | VNone => false
  | VBool b => b
  | VInt z => negb (z =? 0)%Z
  | VStr s => negb (String.eqb s "")
  | VRef _ => true
  end.

(** * [sisl/_plugs.py] *)

Module PlugsMixin.
Section PlugsMixin.

(** The internal state of a receiver (a geometry, say).  The framework
    never looks inside it. *)
Context {St : Type}.

(** Objects are allocated at increasing locations and never freed. *)
Abbreviation heap := (list St).

(** What the instrumented run records: every call the wrapper makes,
    with the exact receiver and arguments, and every copy it takes. *)
Inductive event : Type :=
  | Copied (src dst : loc)
  | Called (f : string) (obj : loc) (args : list pyval)
           (kwargs : gmap string pyval).

Record world : Type := World { w_heap : heap; w_log : list event }.

(** A Python function following the [(obj, *args, **kwargs) -> obj]
    convention: its name, what [inspect.getfullargspec] reports as
    [args] and [kwonlyargs], and its effect on the heap. *)
Record callable : Type := Callable {
  c_name : string;
  c_args : list string;
  c_kwonlyargs : list string;
  c_body : loc → list pyval → gmap string pyval → heap → result loc * heap
}.

(** A plug: the two hook tables the loop of [__getattribute__] reads. *)
Record plug : Type := Plug {
  pre_hooks : gmap string callable;
  post_hooks : gmap string callable
}.

(** Values bound to names in the host's own name space. [_plugs] is one
    of them: an insertion-ordered dict from names to plugs. *)
Inductive attr_value : Type :=
  | AData (v : pyval)
  | AFunc (f : callable)
  | APlugs (ps : list (string * plug)).

(** What an attribute access can produce. *)
Inductive access : Type :=
  | Plain (a : attr_value)
  | Attached (p : plug)
  | Hooked (attr : callable) (pre_funcs post_funcs : list callable).

(** The host: the name space [super().__getattribute__] resolves in. *)
Abbreviation host := (gmap string attr_value).

(** [d[k]] on an insertion-ordered dict *)
Fixpoint dict_get {V} (d : list (string * V)) (k : string) : result V :=
  match d with
  | [] => Raise KeyError
  | (k', v) :: d' => if String.eqb k' k then Ok v else dict_get d' k
  end.

(** [k in d] *)
Definition dict_contains {V} (d : list (string * V)) (k : string) : bool :=
  existsb (λ kv, String.eqb kv.1 k) d.

(** [self._plugs] must be the dict for [.items()], [[name]] and [in]. *)
Definition as_plugs (r : access) : result (list (string * plug)) :=
  match r with
  | Plain (APlugs ps) => Ok ps
  | _ => Raise TypeError
  end.

(** The loop of [__getattribute__], lines 62-70.  Its loop variable is
    called [name] as well, so inside the loop the name that was accessed
    is out of reach: both tables are indexed by the key the plug is
    stored under. *)
Definition gather (name : string) (_plugs : list (string * plug))
  : list callable * list callable :=
  foldl (λ '(pre_funcs, post_funcs) '(name, plug),
           (match pre_hooks plug !! name with
            | Some f => pre_funcs ++ [f]
            | None => pre_funcs
            end,
            match post_hooks plug !! name with
            | Some f => post_funcs ++ [f]
            | None => post_funcs
            end))
        ([], []) _plugs.

(** How the interpreter combines the two methods: [__getattr__] runs
    when, and only when, [__getattribute__] raised [AttributeError]. *)
Definition fallback {A} (first second : result A) : result A :=
  match first with
  | Raise AttributeError => second
  | _ => first
  end.

(** Evaluation of the expression [self.name] with [depth] frames left
    before the interpreter raises [RecursionError]: first
    [__getattribute__], and [__getattr__] when that raised
    [AttributeError].  Both bodies read [self._plugs], which is again
    such an expression. *)
Fixpoint getattr (depth : nat) (self : host) (name : string) : result access :=
  match depth with
  | 0 => Raise RecursionError
  | S depth =>
    let __getattribute__ : result access :=
      match self !! name with
      | None => Raise AttributeError
      | Some attr =>
        match attr with
        | AFunc f =>
          try! _plugs := rbind (getattr depth self "_plugs") as_plugs in
          let '(pre_funcs, post_funcs) := gather name _plugs in
          match pre_funcs, post_funcs with
          | [], [] => Ok (Plain attr)
          | _, _ => Ok (Hooked f pre_funcs post_funcs)
          end
        | _ => Ok (Plain attr)
        end
      end in
    let __getattr__ : result access :=
      match rbind (rbind (getattr depth self "_plugs") as_plugs)
                  (λ _plugs, dict_get _plugs name) with
      | Ok p => Ok (Attached p)
      | Raise KeyError => Raise AttributeError
      | Raise e => Raise e
      end in
    fallback __getattribute__ __getattr__
  end.

(** [PlugsMixin.__setattr__] *)
Definition __setattr__ (depth : nat) (name : string) (value : attr_value)
  : M host unit :=
  λ self,
    match depth with
    | 0 => (Raise RecursionError, self)
    | S depth =>
      match rbind (getattr depth self "_plugs") as_plugs with
      | Raise e => (Raise e, self)
      | Ok _plugs =>
        if dict_contains _plugs name
        then (Raise AttributeError, self)
        else (Ok tt, <[name := value]> self)
      end
    end.

(** [PlugsMixin.__init__]: [self._plugs = dict()] *)
Definition __init__ (depth : nat) : M host unit :=
  λ self,
    match depth with
    | 0 => (Raise RecursionError, self)
    | S depth => __setattr__ depth "_plugs" (APlugs []) self
    end.

(** *** The wrapper [combi_hook] *)

(** Modelled from the spec: [obj.copy()] belongs to the class of the
    receiver, which is not part of this file.  Section 5 requires a copy
    to share nothing with the receiver, so it is a new object that
    starts in the receiver's state. *)
Definition copy (obj : loc) : M world loc :=
  λ w,
    match w_heap w !! obj with
    | Some s =>
      let dst := length (w_heap w) in
      (Ok dst, World (w_heap w ++ [s]) (w_log w ++ [Copied obj dst]))
    | None => (Raise AttributeError, w)
    end.

(** [f(obj, *args, **kwargs)], recorded with the receiver and the
    arguments it was made with. *)
Definition call (f : callable) (obj : loc) (args : list pyval)
    (kwargs : gmap string pyval) : M world loc :=
  λ w,
    let '(r, h) := c_body f obj args kwargs (w_heap w) in
    (r, World h (w_log w ++ [Called (c_name f) obj args kwargs])).

(** [for f in fs: obj = f(obj, *args, **kwargs)] *)
Fixpoint run_hooks (fs : list callable) (obj : loc) (args : list pyval)
    (kwargs : gmap string pyval) : M world loc :=
  match fs with
  | [] => ret obj
  | f :: fs =>
    let! obj := call f obj args kwargs in
    run_hooks fs obj args kwargs
  end.

Definition declares_inplace (attr : callable) : bool :=
  bool_decide ("inplace" ∈ c_args attr)
  || bool_decide ("inplace" ∈ c_kwonlyargs attr).

(** The local variable [inplace] after lines 77-84. *)
Definition inplace_of (kwargs : gmap string pyval) : pyval :=
  default (VBool false) (kwargs !! "inplace").

(** The dict [kwargs] after lines 77-84. *)
Definition kwargs_of (attr : callable) (kwargs : gmap string pyval)
  : gmap string pyval :=
  match kwargs !! "inplace" with
  | Some _ => kwargs
  | None =>
    if declares_inplace attr then <["inplace" := VBool true]> kwargs
    else kwargs
  end.

Definition combi_hook (attr : callable) (pre_funcs post_funcs : list callable)
    (obj : loc) (args : list pyval) (kwargs : gmap string pyval)
  : M world loc :=
  let inplace := inplace_of kwargs in
  let kwargs := kwargs_of attr kwargs in
  let! obj := (if negb (truthy inplace) then copy obj else ret obj) in
  let! obj := run_hooks pre_funcs obj args kwargs in
  let! obj := call attr obj args kwargs in
  run_hooks (reverse post_funcs) obj args kwargs.

(** Calling what an attribute access returned, in the convention of
    the module: the receiver first. *)
Definition invoke (r : access) (obj : loc) (args : list pyval)
    (kwargs : gmap string pyval) : M world loc :=
  match r with
  | Plain (AFunc f) => call f obj args kwargs
  | Hooked attr pre_funcs post_funcs =>
    combi_hook attr pre_funcs post_funcs obj args kwargs
  | _ => throw TypeError
  end.

End PlugsMixin.
End PlugsMixin.

(** * [sisl/mixing/base.py] *)

(** Indexing a sequence of length [n] with a Python integer: negative
    indices count from the end, anything else out of range raises. *)
Definition py_index (n : nat) (i : Z) : result nat :=
  let i := if (i <? 0)%Z then (i + Z.of_nat n)%Z else i in
  if ((0 <=? i) && (i <? Z.of_nat n))%Z then Ok (Z.to_nat i)
  else Raise IndexError.

(** [for x in xs: body(x)] *)
Fixpoint for_each {S X} (xs : list X) (body : X → M S unit) : M S unit :=
  match xs with
  | [] => ret tt
  | x :: xs => let! _u := body x in for_each xs body
  end.

(** [range(n)] *)
Definition range (n : nat) : list Z := Z.of_nat <$> seq 0 n.

(** [index.sort(reverse=True)] *)
Definition sort_reverse (index : list Z) : list Z :=
  merge_sort (flip Z.le) index.

(** ** [collections.deque] with its optional bound *)

Module Deque.
Section Deque.

Context {A : Type}.

Record t : Type := Make { maxlen : option nat; items : list A }.

(** The largest value of the C type [Py_ssize_t], on a 64-bit build. *)
Definition ssize_t_max : Z := 2 ^ 63 - 1.

(** [deque(maxlen=m)]: the bound is first converted to [Py_ssize_t],
    which raises [OverflowError] outside that type, and only then tested
    for its sign. *)
Definition new (m : option Z) : result t :=
  match m with
  | None => Ok (Make None [])
  | Some m =>
    if ((m <? - ssize_t_max - 1) || (ssize_t_max <? m))%Z
    then Raise OverflowError
    else if (m <? 0)%Z then Raise ValueError
    else Ok (Make (Some (Z.to_nat m)) [])
  end.

(** [d.append(x)]: the oldest element leaves when the bound is passed. *)
Definition append (d : t) (x : A) : t :=
  let grown := items d ++ [x] in
  match maxlen d with
  | Some m =>
    if decide (m < length grown) then Make (maxlen d) (drop 1 grown)
    else Make (maxlen d) grown
  | None => Make (maxlen d) grown
  end.

(** [d.clear()] *)
Definition clear (d : t) : t := Make (maxlen d) [].

(** [del d[i]] *)
Definition delitem (d : t) (i : Z) : result t :=
  try! k := py_index (length (items d)) i in
  Ok (Make (maxlen d) (delete k (items d))).

End Deque.
Arguments t A : clear implicits.
End Deque.

(** ** [History] *)

Module History.
Section History.

(** The values kept in the history; opaque to the class. *)
Context {A : Type}.

Record t : Type := Make { _hist : list (Deque.t A) }.

(** [History.__init__(history, variables)] *)
Definition __init__ (history : option Z) (variables : Z) : result t :=
  if (variables <=? 0)%Z then Ok (Make [])
  else
    try! d := Deque.new history in
    Ok (Make (replicate (Z.to_nat variables) d)).

(** The property [variables] *)
Definition variables (self : t) : nat := length (_hist self).

(** The property [history] *)
Definition history (self : t) : result nat :=
  match _hist self with
  | d :: _ => Ok (length (Deque.items d))
  | [] => Raise IndexError
  end.

(** The property [history_max] *)
Definition history_max (self : t) : result (option nat) :=
  match _hist self with
  | d :: _ => Ok (Deque.maxlen d)
  | [] => Raise IndexError
  end.

(** A statement that mutates [self._hist[v]] in place, or raises from
    the subscript or from the mutation, leaving the slot as it was. *)
Definition on_slot (v : Z) (op : Deque.t A → result (Deque.t A)) : M t unit :=
  λ self,
    match py_index (length (_hist self)) v with
    | Raise e => (Raise e, self)
    | Ok k =>
      match _hist self !! k with
      | None => (Raise IndexError, self)
      | Some d =>
        match op d with
        | Raise e => (Raise e, self)
        | Ok d' => (Ok tt, Make (<[k := d']> (_hist self)))
        end
      end
    end.

(** The first lines of [append] and [clear]:
    [if variables is None: variables = range(self.variables)]
    and [variables = list(variables)]. *)
Definition selected (self : t) (variables_ : option (list Z)) : list Z :=
  match variables_ with
  | None => range (variables self)
  | Some vs => vs
  end.

(** [History.append], called as [append(v1, ..., vn, variables=None)] *)
Definition append (args : list A) (variables_ : option (list Z)) : M t unit :=
  λ self,
    let variables_ := selected self variables_ in
    if decide (length args ≠ length variables_) then (Raise ValueError, self)
    else
      for_each (zip variables_ args)
               (λ '(i, arg), on_slot i (λ d, Ok (Deque.append d arg))) self.

(** [History.clear(index=None, variables=None)] *)
Definition clear (index : option (list Z)) (variables_ : option (list Z))
  : M t unit :=
  λ self,
    let variables_ := selected self variables_ in
    match index with
    | None =>
      for_each variables_ (λ v, on_slot v (λ d, Ok (Deque.clear d))) self
    | Some index =>
      let index := sort_reverse index in
      for_each variables_
        (λ v, for_each index (λ i, on_slot v (λ d, Deque.delitem d i))) self
    end.

End History.
Arguments t A : clear implicits.
End History.

(** ** [Metric] *)

(** What [inner] asks of its operands: the method [dot], the operator
    [*] and the method [sum] of a product.  Any of them may be missing
    or fail, which is an exception. *)
Class ArrayLike (V R : Type) : Type := {
  dot : V → V → result R;
  mul : V → V → result V;
  sum : V → result R
}.

Module Metric.
Section Metric.

Context {V R : Type} `{!ArrayLike V R}.

Record t : Type := Make { _metric : V → result V }.

(** [Metric.__init__(metric=None)]; [_dummy_dot] returns its argument. *)
Definition __init__ (metric : option (V → result V)) : t :=
  match metric with
  | None => Make (λ a, Ok a)
  | Some metric => Make metric
  end.

(** [Metric.inner]: a bare [except] catches whatever the first
    attempt raised. *)
Definition inner (self : t) (a b : V) : result R :=
  match rbind (_metric self b) (dot a) with
  | Ok r => Ok r
  | Raise _ => rbind (rbind (_metric self b) (mul a)) sum
  end.

End Metric.
Arguments t V : clear implicits.
End Metric.

(** * Notions used in the statements *)

Section Notions.

Context {St : Type}.
Import PlugsMixin.

(** The contract of the module docstring for hooks and hooked methods:
    they work on the object they are given.  On the heap: no other
    existing object changes, nothing is freed, and the object handed
    back is the one received or one created during the call. *)
Definition confined (f : @callable St) : Prop :=
  ∀ obj args kwargs h r h',
    obj < length h →
    c_body f obj args kwargs h = (r, h') →
    length h ≤ length h'
    ∧ (∀ l, l < length h → l ≠ obj → h' !! l = h !! l)
    ∧ match r with
      | Ok obj' => obj' < length h' ∧ (obj' = obj ∨ length h ≤ obj')
      | Raise _ => True
      end.

(** Called with these arguments, the callable hands back the very
    object it received.  With other arguments it may do otherwise, as a
    method that honours its [inplace] flag does. *)
Definition hands_back (args : list pyval) (kwargs : gmap string pyval)
    (f : @callable St) : Prop :=
  ∀ obj h obj' h',
    c_body f obj args kwargs h = (Ok obj', h') → obj' = obj.

(** The recorded step is a call, not a copy. *)
Definition is_call (e : event) : Prop :=
  match e with
  | Called _ _ _ _ => True
  | Copied _ _ => False
  end.

(** The recorded call was not made on [p]. *)
Definition spares (p : loc) (e : event) : Prop :=
  match e with
  | Called _ obj _ _ => obj ≠ p
  | Copied _ _ => True
  end.

(** The recorded step is a call on [p]; in particular not a copy. *)
Definition call_on (p : loc) (e : event) : Prop :=
  match e with
  | Called _ obj _ _ => obj = p
  | Copied _ _ => False
  end.

(** The recorded call passed exactly these arguments. *)
Definition passes (args : list pyval) (kwargs : gmap string pyval)
    (e : event) : Prop :=
  match e with
  | Called _ _ args' kwargs' => args' = args ∧ kwargs' = kwargs
  | Copied _ _ => True
  end.

(** The first step recorded after [w], if there is one, is a call on
    [p]. *)
Definition starts_on (p : loc) (w w' : @world St) : Prop :=
  ∀ e evs, w_log w' = w_log w ++ e :: evs →
    match e with
    | Called _ obj _ _ => obj = p
    | Copied _ _ => False
    end.

(** [w'] continues the record of [w] with steps that all satisfy [P]. *)
Definition extends (P : event → Prop) (w w' : @world St) : Prop :=
  ∃ evs, w_log w' = w_log w ++ evs ∧ Forall P evs.

(** What a computation started in [w] on a working object other than
    [p] owes to [p]: nothing is freed, [p] keeps its state, every
    recorded call spared [p] and passed [args] and [kwargs], and the
    object handed back is allocated and is not [p]. *)
Definition kept (p : loc) (args : list pyval) (kwargs : gmap string pyval)
    (w : @world St) (out : result loc * @world St) : Prop :=
  length (w_heap w) ≤ length (w_heap out.2)
  ∧ w_heap out.2 !! p = w_heap w !! p
  ∧ extends (λ e, spares p e ∧ passes args kwargs e) w out.2
  ∧ match out.1 with
    | Ok cur => cur < length (w_heap out.2) ∧ cur ≠ p
    | Raise _ => True
    end.

End Notions.

(** Receivers for the examples: an object whose whole state is one
    integer, and callables that add to it in place. *)
Module Counter.

Import PlugsMixin.

Definition add (d : Z) (obj : loc) (args : list pyval)
    (kwargs : gmap string pyval) (h : list Z) : result loc * list Z :=
  match h !! obj with
  | Some s => (Ok obj, <[obj := (s + d)%Z]> h)
  | None => (Raise AttributeError, h)
  end.

(** [def op(obj, *args, **kwargs)] *)
Definition op : @callable Z := Callable "op" ["obj"] [] (add 1).
(** [def op(obj, *args, inplace=False, **kwargs)] *)
Definition op_inplace : @callable Z :=
  Callable "op" ["obj"] ["inplace"] (add 1).
Definition a_pre : @callable Z := Callable "A.pre" ["obj"] [] (add 10).
Definition a_post : @callable Z := Callable "A.post" ["obj"] [] (add 1000).
Definition b_pre : @callable Z := Callable "B.pre" ["obj"] [] (add 100).
Definition b_post : @callable Z := Callable "B.post" ["obj"] [] (add 10000).

(** One plug, stored as [a], with a pre-hook registered for [op]. *)
Definition host_one_pre : gmap string (@attr_value Z) :=
  {[ "_plugs" := APlugs [("a", Plug {[ "op" := a_pre ]} ∅)];
     "op" := AFunc op ]}.

(** Two plugs, [A] before [B], each with both hooks registered for [op]. *)
Definition host_two : gmap string (@attr_value Z) :=
  {[ "_plugs" :=
       APlugs [("A", Plug {[ "op" := a_pre ]} {[ "op" := a_post ]});
               ("B", Plug {[ "op" := b_pre ]} {[ "op" := b_post ]})];
     "op" := AFunc op ]}.

(** The same two plugs with their hooks registered under the plugs' own
    names. *)
Definition host_two_own_names : gmap string (@attr_value Z) :=
  {[ "_plugs" :=
       APlugs [("A", Plug {[ "A" := a_pre ]} {[ "A" := a_post ]});
               ("B", Plug {[ "B" := b_pre ]} {[ "B" := b_post ]})];
     "op" := AFunc op ]}.

End Counter.

(** The slot that the number [v] names among [n] slots: numbers below
    zero count from the end. *)
Definition slot_of (n : nat) (v : Z) : nat :=
  Z.to_nat (if decide (v < 0)%Z then (v + Z.of_nat n)%Z else v).

(** The number [v] names one of [n] slots. *)
Definition names_slot (n : nat) (v : Z) : Prop :=
  (- Z.of_nat n ≤ v < Z.of_nat n)%Z.

(** The slots a call concerns: those listed in [variables], or all [n]
    of them, in order, when [variables] is omitted. *)
Definition chosen (n : nat) (variables_ : option (list Z)) : list Z :=
  match variables_ with
  | None => Z.of_nat <$> seq 0 n
  | Some vs => vs
  end.

Section HistoryNotions.

Context {A : Type}.

(** The values of one [append] that are meant for slot [k] of [n], in
    the order in which they were passed. *)
Definition destined (n k : nat) (variables_ : list Z) (args : list A)
  : list A :=
  omap (λ '(v, arg), if decide (slot_of n v = k) then Some arg else None)
       (zip variables_ args).

(** The elements of [l] whose position, counted from [pos] on, is not
    listed in [index]; the others in their original order. *)
Fixpoint surviving_from (pos : nat) (index : list Z) (l : list A) : list A :=
  match l with
  | [] => []
  | x :: l =>
    if decide (Z.of_nat pos ∈ index) then surviving_from (S pos) index l
    else x :: surviving_from (S pos) index l
  end.

Definition surviving (index : list Z) (l : list A) : list A :=
  surviving_from 0 index l.

End HistoryNotions.

(** Operands for the examples: one-dimensional integer arrays, with the
    shape rules of numpy.  [dot] wants equal lengths; [*] also broadcasts
    an array of length one. *)
Module IntVector.

Definition total (a : list Z) : Z := foldr Z.add 0%Z a.

Definition vdot (a b : list Z) : result Z :=
  if decide (length a = length b) then Ok (total (zip_with Z.mul a b))
  else Raise ValueError.

Definition vmul (a b : list Z) : result (list Z) :=
  if decide (length a = length b) then Ok (zip_with Z.mul a b)
  else
    match a, b with
    | [x], _ => Ok (Z.mul x <$> b)
    | _, [y] => Ok ((λ x, x * y)%Z <$> a)
    | _, _ => Raise ValueError
    end.

Definition vsum (a : list Z) : result Z := Ok (total a).

Global Instance int_vector : ArrayLike (list Z) Z :=
  {| dot := vdot; mul := vmul; sum := vsum |}.

End IntVector.

(** Two-dimensional integer arrays, as lists of rows, again with the
    rules of numpy: [dot] is the matrix product and yields an array,
    [*] is elementwise on equal shapes, [sum] adds up all entries and
    yields a number. *)
Module IntMatrix.

Inductive value : Type :=
  | Number (z : Z)
  | Array (rows : list (list Z)).

Definition width (m : list (list Z)) : nat :=
  match m with
  | [] => 0
  | row :: _ => length row
  end.

Definition column (j : nat) (m : list (list Z)) : list Z :=
  omap (λ row, row !! j) m.

Definition mdot (a b : list (list Z)) : result value :=
  if decide (width a = length b)
  then Ok (Array
             ((λ row, (λ j, IntVector.total (zip_with Z.mul row (column j b)))
                       <$> seq 0 (width b)) <$> a))
  else Raise ValueError.

Definition mmul (a b : list (list Z)) : result (list (list Z)) :=
  if decide (length a = length b ∧ width a = width b)
  then Ok (zip_with (zip_with Z.mul) a b)
  else Raise ValueError.

Definition msum (a : list (list Z)) : result value :=
  Ok (Number (IntVector.total (IntVector.total <$> a))).

Global Instance int_matrix : ArrayLike (list (list Z)) value :=
  {| dot := mdot; mul := mmul; sum := msum |}.

End IntMatrix.

(** ** [Mixer] *)

Module Mixer.

(** [Mixer.clear]: a method whose body is [pass]. *)
Definition clear {S : Type} : M S unit := ret tt.

End Mixer.

(** * Further notions *)

Section CallNotions.

Context {St : Type}.
Import PlugsMixin.

(** What the dict of plugs contributes to a wrapper, plug by plug in
    insertion order: the entry of each hook table under the key of the
    plug itself. *)
Definition own_pre (ps : list (string * @plug St)) : list (@callable St) :=
  omap (λ '(name, plug), pre_hooks plug !! name) ps.

Definition own_post (ps : list (string * @plug St)) : list (@callable St) :=
  omap (λ '(name, plug), post_hooks plug !! name) ps.

(** The function a recorded step called, if it was a call. *)
Definition callee (e : event) : option string :=
  match e with
  | Called f _ _ _ => Some f
  | Copied _ _ => None
  end.

(** A computation that was to call [names] in this order did so as far
    as it got, and completely if it returned. *)
Definition traced {A} (names : list string) (w : @world St)
    (out : result A * @world St) : Prop :=
  ∃ evs,
    w_log out.2 = w_log w ++ evs
    ∧ omap callee evs `prefix_of` names
    ∧ ∀ a, out.1 = Ok a → omap callee evs = names.

End CallNotions.

Section DequeNotions.

Context {A : Type}.

(** A deque within its bound. *)
Definition bounded (d : Deque.t A) : Prop :=
  match Deque.maxlen d with
  | Some m => length (Deque.items d) ≤ m
  | None => True
  end.

(** The most recent [m] elements of [l]; all of them without a bound. *)
Definition keep_last (m : option nat) (l : list A) : list A :=
  match m with
  | Some m => drop (length l - m) l
  | None => l
  end.

(** A mutation of a slot that keeps its bound, and keeps it within the
    bound if it was. *)
Definition same_bound (d d' : Deque.t A) : Prop :=
  Deque.maxlen d' = Deque.maxlen d ∧ (bounded d → bounded d').

End DequeNotions.

(** A method, and a hook with the same signature, that honour their
    [inplace] flag: with a true flag they add to the receiver and return
    it; otherwise they leave it alone and return a new object. *)
Module Tiling.

Import PlugsMixin.

Definition step (d : Z) (obj : loc) (args : list pyval)
    (kwargs : gmap string pyval) (h : list Z) : result loc * list Z :=
  match h !! obj with
  | None => (Raise AttributeError, h)
  | Some s =>
    if truthy (default (VBool false) (kwargs !! "inplace"))
    then (Ok obj, <[obj := (s + d)%Z]> h)
    else (Ok (length h), h ++ [(s + d)%Z])
  end.

(** [def tile(obj, reps, inplace=False)] *)
Definition tile : @callable Z :=
  Callable "tile" ["obj"; "reps"; "inplace"] [] (step 1).

Definition tile_pre : @callable Z :=
  Callable "P.pre" ["obj"; "reps"; "inplace"] [] (step 10).

End Tiling.

(** More objects for the examples: a hook that refuses to run, and a
    host with two methods and one plug that hooks under its own name. *)
Module Faulty.

Import PlugsMixin.



Definition host_two_methods : gmap string (@attr_value Z) :=
  {[ "_plugs" := APlugs [("A", Plug {[ "A" := Counter.a_pre ]} ∅)];
     "op" := AFunc Counter.op;
     "other" := AFunc Counter.op_inplace ]}.

End Faulty.

(** * Properties of [PlugsMixin] *)

Section PlugsMixinFacts.

Context {St : Type}.
Import PlugsMixin.
Implicit Types (self : gmap string (@attr_value St)).
Implicit Types (w : @world St).

Lemma getattr_unfold depth self name :
  getattr (S depth) self name =
    fallback
      (match self !! name with
      | None => Raise AttributeError
      | Some attr =>
        match attr with
        | AFunc f =>
          try! _plugs := rbind (getattr depth self "_plugs") as_plugs in
          let '(pre_funcs, post_funcs) := gather name _plugs in
          match pre_funcs, post_funcs with
          | [], [] => Ok (Plain attr)
          | _, _ => Ok (Hooked f pre_funcs post_funcs)
          end
        | _ => Ok (Plain attr)
        end
      end)
      (match rbind (rbind (getattr depth self "_plugs") as_plugs)
                   (λ _plugs, dict_get _plugs name) with
       | Ok p => Ok (Attached p)
       | Raise KeyError => Raise AttributeError
       | Raise e => Raise e
       end).
Proof. reflexivity. Qed.

(** Reading [self._plugs] once the dict is in place takes one frame. *)
Lemma getattr_plugs_set depth self ps :
  self !! "_plugs" = Some (APlugs ps) →
  getattr (S depth) self "_plugs" = Ok (Plain (APlugs ps)).
Proof. intros Hps. rewrite getattr_unfold, Hps. reflexivity. Qed.

(** Reading [self._plugs] before it was ever bound never returns:
    [__getattribute__] raises [AttributeError], [__getattr__] reads
    [self._plugs] again, and so on until the frames run out. *)
Lemma getattr_plugs_unset depth self :
  self !! "_plugs" = None →
  getattr depth self "_plugs" = Raise RecursionError.
Proof.
  intros Hnone. induction depth as [|depth IH]; [reflexivity|].
  rewrite getattr_unfold, Hnone, IH. reflexivity.
Qed.

(** The loop never looks at the accessed name. *)
Lemma gather_ignores_name name name' (ps : list (string * @plug St)) :
  gather name ps = gather name' ps.
Proof. reflexivity. Qed.

Lemma dict_contains_elem {V} (d : list (string * V)) k :
  dict_contains d k = true ↔ k ∈ d.*1.
Proof.
  unfold dict_contains. induction d as [|[k' v] d IH]; simpl.
  - split; [discriminate | intros H; inversion H].
  - rewrite orb_true_iff, IH, elem_of_cons, String.eqb_eq.
    split; intros [->|?]; auto.
Qed.

(** C6 (as the code behaves): [PlugsMixin.__init__] does not produce a
    host with an empty attachment set.  On an object that has no
    [_plugs] yet, the assignment [self._plugs = dict()] enters
    [__setattr__], whose test [name in self._plugs] reads the attribute
    being created; the read recurses through [__getattr__] until the
    interpreter gives up.  Whatever the recursion limit, construction
    ends in [RecursionError] and nothing has been bound. *)
Theorem init_raises_RecursionError depth self :
  self !! "_plugs" = None →
  __init__ depth self = (Raise RecursionError, self).
Proof.
  intros Hnone. destruct depth as [|[|depth]]; [reflexivity..|].
  unfold __init__, __setattr__.
  rewrite getattr_plugs_unset by done. reflexivity.
Qed.

(** C7: on a host whose attachment set binds [name], the assignment
    [self.name = value] raises [AttributeError] and leaves the host,
    hence the attachment under [name], exactly as it was: looking the
    name up afterwards gives what it gave before. *)
Theorem setattr_on_plug_name_rejected depth self ps name value :
  2 ≤ depth →
  self !! "_plugs" = Some (APlugs ps) →
  name ∈ ps.*1 →
  __setattr__ depth name value self = (Raise AttributeError, self)
  ∧ ∀ depth',
      getattr depth' (__setattr__ depth name value self).2 name
      = getattr depth' self name.
Proof.
  intros Hdepth Hps Hin.
  assert (__setattr__ depth name value self = (Raise AttributeError, self))
    as Heq.
  { destruct depth as [|[|depth]]; [lia..|].
    unfold __setattr__. rewrite (getattr_plugs_set _ _ _ Hps). simpl.
    apply dict_contains_elem in Hin. rewrite Hin. reflexivity. }
  split; [exact Heq|]. intros depth'. rewrite Heq. reflexivity.
Qed.

(** What [invoke] records for a callable that was returned unwrapped. *)
Lemma invoke_plain_log f obj args kwargs w :
  w_log (invoke (Plain (AFunc f)) obj args kwargs w).2
  = w_log w ++ [Called (c_name f) obj args kwargs].
Proof.
  unfold invoke, call. destruct (c_body f obj args kwargs (w_heap w)).
  reflexivity.
Qed.

(** C1 (as the code behaves): with one attachment, stored under [a],
    whose pre-hook table maps [op] to [h], accessing [op] returns the
    method itself, not a wrapper.  The loop indexed the table with
    [a], the key of the attachment, and found nothing.  Invoking the
    result records one call, that of [op]; [h] is not called. *)
Theorem pre_hook_for_op_is_not_collected depth self a op h f obj args kwargs w :
  2 ≤ depth →
  a ≠ op →
  self !! "_plugs" = Some (APlugs [(a, Plug {[ op := h ]} ∅)]) →
  self !! op = Some (AFunc f) →
  getattr depth self op = Ok (Plain (AFunc f))
  ∧ w_log (invoke (Plain (AFunc f)) obj args kwargs w).2
    = w_log w ++ [Called (c_name f) obj args kwargs].
Proof.
  intros Hdepth Hne Hps Hop. split; [|apply invoke_plain_log].
  destruct depth as [|[|depth]]; [lia..|].
  rewrite getattr_unfold, Hop, (getattr_plugs_set _ _ _ Hps).
  unfold gather. simpl.
  rewrite lookup_singleton_ne by congruence. rewrite lookup_empty.
  reflexivity.
Qed.

(** C2 (as the code behaves): with attachments [A] then [B], all four
    hooks registered for [op], accessing [op] again returns the bare
    method, for the same reason as above.  Its invocation consists of
    the body of [op] alone. *)
Theorem hooks_for_op_of_two_plugs_are_not_collected
    depth self a b op a_pre a_post b_pre b_post f obj args kwargs w :
  2 ≤ depth →
  a ≠ op → b ≠ op →
  self !! "_plugs"
    = Some (APlugs [(a, Plug {[ op := a_pre ]} {[ op := a_post ]});
                    (b, Plug {[ op := b_pre ]} {[ op := b_post ]})]) →
  self !! op = Some (AFunc f) →
  getattr depth self op = Ok (Plain (AFunc f))
  ∧ w_log (invoke (Plain (AFunc f)) obj args kwargs w).2
    = w_log w ++ [Called (c_name f) obj args kwargs].
Proof.
  intros Hdepth Ha Hb Hps Hop. split; [|apply invoke_plain_log].
  destruct depth as [|[|depth]]; [lia..|].
  rewrite getattr_unfold, Hop, (getattr_plugs_set _ _ _ Hps).
  unfold gather. simpl.
  rewrite !lookup_singleton_ne by congruence.
  reflexivity.
Qed.

End PlugsMixinFacts.

(** ** The wrapper *)

Section CombiHookFacts.

Context {St : Type}.
Import PlugsMixin.
Implicit Types (w : @world St) (f attr : @callable St).
Implicit Types (fs pre post : list (@callable St)).

Lemma extends_refl P w : extends P w w.
Proof. exists []. rewrite app_nil_r. auto. Qed.

Lemma extends_trans P w1 w2 w3 :
  extends P w1 w2 → extends P w2 w3 → extends P w1 w3.
Proof.
  intros (e1 & H1 & F1) (e2 & H2 & F2). exists (e1 ++ e2).
  rewrite H2, H1, app_assoc. split; [reflexivity|].
  apply Forall_app; auto.
Qed.

Lemma extends_weaken (P Q : event → Prop) w w' :
  (∀ e, P e → Q e) → extends P w w' → extends Q w w'.
Proof.
  intros HPQ (evs & Hlog & HF). exists evs. split; [done|].
  eapply Forall_impl; eauto.
Qed.

Lemma call_log f obj args kwargs w :
  w_log (call f obj args kwargs w).2
  = w_log w ++ [Called (c_name f) obj args kwargs].
Proof.
  unfold call. destruct (c_body f obj args kwargs (w_heap w)). reflexivity.
Qed.

(** *** Arguments seen by the hooks *)

Lemma call_passes f obj args kwargs w :
  extends (passes args kwargs) w (call f obj args kwargs w).2.
Proof.
  eexists. split; [apply call_log|].
  constructor; [split; reflexivity | constructor].
Qed.

Lemma bind_extends {A B} P (m : M (@world St) A) (k : A → M (@world St) B) w :
  extends P w (m w).2 →
  (∀ a w1, extends P w1 (k a w1).2) →
  extends P w (bind m k w).2.
Proof.
  intros Hm Hk. unfold bind. destruct (m w) as [[a|e] w1]; simpl in *.
  - eapply extends_trans; [exact Hm | apply Hk].
  - exact Hm.
Qed.

Lemma run_hooks_passes fs obj args kwargs w :
  extends (passes args kwargs) w (run_hooks fs obj args kwargs w).2.
Proof.
  revert obj w. induction fs as [|f fs IH]; intros obj w; simpl.
  - apply extends_refl.
  - apply bind_extends; [apply call_passes | intros; apply IH].
Qed.

Lemma copy_passes obj args kwargs w :
  extends (passes args kwargs) w (copy obj w).2.
Proof.
  unfold copy. destruct (w_heap w !! obj); simpl.
  - eexists. split; [reflexivity|]. constructor; [exact I | constructor].
  - apply extends_refl.
Qed.

Lemma combi_hook_passes attr pre post obj args kwargs w :
  extends (passes args (kwargs_of attr kwargs)) w
          (combi_hook attr pre post obj args kwargs w).2.
Proof.
  unfold combi_hook.
  apply bind_extends.
  { destruct (negb _); [apply copy_passes | apply extends_refl]. }
  intros obj1 w1. apply bind_extends; [apply run_hooks_passes|].
  intros obj2 w2. apply bind_extends; [apply call_passes|].
  intros obj3 w3. apply run_hooks_passes.
Qed.

(** *** The receiver of a call that is not in place *)

Lemma kept_bind p args kwargs (m : M (@world St) loc)
    (k : loc → M (@world St) loc) w :
  kept p args kwargs w (m w) →
  (∀ cur w1,
      length (w_heap w) ≤ length (w_heap w1) →
      cur < length (w_heap w1) → cur ≠ p →
      kept p args kwargs w1 (k cur w1)) →
  kept p args kwargs w (bind m k w).
Proof.
  intros (Hlen & Hp & Hext & Hout) Hk. unfold bind.
  destruct (m w) as [[cur|e] w1]; simpl in *.
  - destruct Hout as [Hcur Hne].
    destruct (Hk cur w1 Hlen Hcur Hne) as (Hlen' & Hp' & Hext' & Hout').
    split; [lia|]. split; [congruence|].
    split; [eapply extends_trans; eauto | exact Hout'].
  - repeat split; auto.
Qed.

Lemma call_kept p f cur args kwargs w :
  confined f →
  p < length (w_heap w) → cur < length (w_heap w) → cur ≠ p →
  kept p args kwargs w (call f cur args kwargs w).
Proof.
  intros Hf Hp Hcur Hne. unfold kept, extends, call.
  destruct (c_body f cur args kwargs (w_heap w)) as [r h'] eqn:Hbody.
  destruct (Hf _ _ _ _ _ _ Hcur Hbody) as (Hlen & Hframe & Hret). simpl.
  split; [exact Hlen|]. split; [apply Hframe; auto|]. split.
  - eexists. split; [reflexivity|].
    constructor; [|constructor]. simpl. auto.
  - destruct r as [cur'|]; [|exact I].
    destruct Hret as [Hlt Hor]. split; [exact Hlt|]. lia.
Qed.

Lemma run_hooks_kept p fs cur args kwargs w :
  Forall confined fs →
  p < length (w_heap w) → cur < length (w_heap w) → cur ≠ p →
  kept p args kwargs w (run_hooks fs cur args kwargs w).
Proof.
  intros Hfs. revert cur w.
  induction Hfs as [|f fs Hf Hfs IH]; intros cur w Hp Hcur Hne; simpl.
  - unfold kept, ret. simpl. repeat split; auto. apply extends_refl.
  - apply kept_bind; [apply call_kept; auto|].
    intros cur1 w1 Hlen Hcur1 Hne1. apply IH; auto. lia.
Qed.

(** Whenever the local [inplace] is false, the wrapper first copies the
    receiver and from then on nothing it calls is given the receiver. *)
Lemma combi_hook_copies attr pre post obj args kwargs w :
  confined attr → Forall confined pre → Forall confined post →
  obj < length (w_heap w) →
  truthy (inplace_of kwargs) = false →
  let w' := (combi_hook attr pre post obj args kwargs w).2 in
  w_heap w' !! obj = w_heap w !! obj
  ∧ ∃ evs,
      w_log w' = w_log w ++ Copied obj (length (w_heap w)) :: evs
      ∧ Forall (λ e, spares obj e ∧ passes args (kwargs_of attr kwargs) e) evs.
Proof.
  intros Hattr Hpre Hpost Hobj Hflag.
  destruct (lookup_lt_is_Some_2 _ _ Hobj) as [s Hs].
  set (w0 := World (w_heap w ++ [s])
                   (w_log w ++ [Copied obj (length (w_heap w))])).
  set (kw := kwargs_of attr kwargs).
  assert (combi_hook attr pre post obj args kwargs w
          = bind (run_hooks pre (length (w_heap w)) args kw)
               (λ obj1, bind (call attr obj1 args kw)
                  (λ obj2, run_hooks (reverse post) obj2 args kw)) w0)
    as ->.
  { unfold combi_hook. rewrite Hflag. simpl negb. cbv iota.
    unfold bind at 1. unfold copy. rewrite Hs. reflexivity. }
  assert (kept obj args kw w0
            (bind (run_hooks pre (length (w_heap w)) args kw)
               (λ obj1, bind (call attr obj1 args kw)
                  (λ obj2, run_hooks (reverse post) obj2 args kw)) w0))
    as (Hlen & Hp & (evs & Hlog & Hevs) & _).
  { assert (length (w_heap w0) = S (length (w_heap w))) as Hl0.
    { unfold w0. simpl. rewrite length_app. simpl. lia. }
    apply kept_bind; [apply run_hooks_kept; auto; lia|].
    intros cur1 w1 Hlen1 Hcur1 Hne1.
    apply kept_bind; [apply call_kept; auto; lia|].
    intros cur2 w2 Hlen2 Hcur2 Hne2.
    apply run_hooks_kept; auto; [|lia]. by apply Forall_reverse. }
  simpl. split.
  - rewrite Hp. unfold w0. simpl. rewrite lookup_app_l by done. done.
  - exists evs. split; [|exact Hevs].
    rewrite Hlog. unfold w0. simpl. rewrite <- app_assoc. reflexivity.
Qed.

(** *** A call that is in place *)

Lemma call_extends (P : event → Prop) f obj args kwargs w :
  P (Called (c_name f) obj args kwargs) →
  extends P w (call f obj args kwargs w).2.
Proof.
  intros HP. eexists. split; [apply call_log|].
  constructor; [exact HP | constructor].
Qed.

Lemma run_hooks_extends (P : event → Prop) fs obj args kwargs w :
  (∀ (callee_ : string) (o : loc), P (Called callee_ o args kwargs)) →
  extends P w (run_hooks fs obj args kwargs w).2.
Proof.
  intros HP. revert obj w. induction fs as [|f fs IH]; intros obj w; simpl.
  - apply extends_refl.
  - apply bind_extends; [by apply call_extends | intros; apply IH].
Qed.

Lemma bind_assoc {S A B C} (m : M S A) (k1 : A → M S B) (k2 : B → M S C) s :
  bind (bind m k1) k2 s = bind m (λ a, bind (k1 a) k2) s.
Proof. unfold bind. by destruct (m s) as [[a|e] s1]. Qed.

Lemma bind_call_starts_on f obj args kwargs (k : loc → M (@world St) loc) w :
  (∀ o w1, extends (λ _, True) w1 (k o w1).2) →
  starts_on obj w (bind (call f obj args kwargs) k w).2.
Proof.
  intros Hk e evs. unfold bind.
  pose proof (call_log f obj args kwargs w) as Hlog.
  destruct (call f obj args kwargs w) as [[o|e'] w1]; simpl in *.
  - destruct (Hk o w1) as (evs2 & -> & _). rewrite Hlog, <- app_assoc.
    intros [= <- _]%app_inv_head. reflexivity.
  - rewrite Hlog. intros [= <- _]%app_inv_head. reflexivity.
Qed.

(** The three stages that follow the decision about the copy. *)
Lemma chain_starts_on attr pre post obj args kwargs w :
  starts_on obj w
    (bind (run_hooks pre obj args kwargs)
       (λ obj1, bind (call attr obj1 args kwargs)
          (λ obj2, run_hooks (reverse post) obj2 args kwargs)) w).2.
Proof.
  assert (∀ fs o w1, extends (λ _, True) w1
                       (run_hooks fs o args kwargs w1).2) as Hrun.
  { intros. by apply run_hooks_extends. }
  assert (∀ o w1, extends (λ _, True) w1
            (bind (call attr o args kwargs)
               (λ obj2, run_hooks (reverse post) obj2 args kwargs) w1).2)
    as Hrest.
  { intros. apply bind_extends; [by apply call_extends | intros; apply Hrun]. }
  destruct pre as [|f fs]; simpl.
  - unfold bind at 1, ret. apply bind_call_starts_on. intros; apply Hrun.
  - rewrite bind_assoc. apply bind_call_starts_on.
    intros o w1. apply bind_extends; [apply Hrun | intros; apply Hrest].
Qed.

Lemma bind_on_receiver obj (m : M (@world St) loc)
    (k : loc → M (@world St) loc) w :
  (extends (call_on obj) w (m w).2 ∧ ∀ o, (m w).1 = Ok o → o = obj) →
  (∀ w1, extends (call_on obj) w1 (k obj w1).2
         ∧ ∀ o, (k obj w1).1 = Ok o → o = obj) →
  extends (call_on obj) w (bind m k w).2
  ∧ ∀ o, (bind m k w).1 = Ok o → o = obj.
Proof.
  intros [Hext Hres] Hk. unfold bind.
  destruct (m w) as [[o|e] w1]; simpl in *.
  - rewrite (Hres o eq_refl). destruct (Hk w1) as [Hext1 Hres1].
    split; [eapply extends_trans; eauto | exact Hres1].
  - split; [exact Hext | discriminate].
Qed.

Lemma call_on_receiver f obj args kwargs w :
  hands_back args kwargs f →
  extends (call_on obj) w (call f obj args kwargs w).2
  ∧ ∀ o, (call f obj args kwargs w).1 = Ok o → o = obj.
Proof.
  intros Hf. split.
  - by apply call_extends.
  - unfold call.
    destruct (c_body f obj args kwargs (w_heap w)) as [r h'] eqn:Hbody.
    simpl. intros o ->. eapply Hf; eauto.
Qed.

Lemma run_hooks_on_receiver fs obj args kwargs w :
  Forall (hands_back args kwargs) fs →
  extends (call_on obj) w (run_hooks fs obj args kwargs w).2
  ∧ ∀ o, (run_hooks fs obj args kwargs w).1 = Ok o → o = obj.
Proof.
  intros Hfs. revert w.
  induction Hfs as [|f fs Hf Hfs IH]; intros w; simpl.
  - split; [apply extends_refl|]. unfold ret. simpl. congruence.
  - apply bind_on_receiver; [by apply call_on_receiver | exact IH].
Qed.

(** The order of the calls, for two hooks on either side and a call in
    place: as long as each step returns, [a_pre], [b_pre], the method,
    [b_post], [a_post], each one on the object the previous one handed
    back. *)
Lemma combi_hook_order attr a_pre b_pre a_post b_post obj args kwargs v w
    o1 h1 o2 h2 o3 h3 o4 h4 o5 h5 :
  kwargs !! "inplace" = Some v → truthy v = true →
  c_body a_pre obj args kwargs (w_heap w) = (Ok o1, h1) →
  c_body b_pre o1 args kwargs h1 = (Ok o2, h2) →
  c_body attr o2 args kwargs h2 = (Ok o3, h3) →
  c_body b_post o3 args kwargs h3 = (Ok o4, h4) →
  c_body a_post o4 args kwargs h4 = (Ok o5, h5) →
  combi_hook attr [a_pre; b_pre] [a_post; b_post] obj args kwargs w
  = (Ok o5,
     World h5
       (w_log w ++ [Called (c_name a_pre) obj args kwargs;
                    Called (c_name b_pre) o1 args kwargs;
                    Called (c_name attr) o2 args kwargs;
                    Called (c_name b_post) o3 args kwargs;
                    Called (c_name a_post) o4 args kwargs])).
Proof.
  intros Hkw Hv H1 H2 H3 H4 H5.
  unfold combi_hook, inplace_of, kwargs_of. rewrite Hkw. simpl. rewrite Hv.
  simpl. unfold bind, ret, call. simpl.
  rewrite H1. simpl. rewrite H2. simpl. rewrite H3. simpl.
  rewrite H4. simpl. rewrite H5. simpl.
  rewrite <- !app_assoc. reflexivity.
Qed.

(** C3: a hooked call whose in-place flag is off (not passed and not
    declared by the callable, or passed as [False]) leaves the receiver
    in the state it had before the call, whether the call returns or
    raises.  The first thing the wrapper does is copy the receiver, and
    none of the calls it then makes is given the receiver.  The hooks
    and the method are assumed to keep to the object they are given. *)
Theorem not_inplace_leaves_receiver_unchanged attr pre post obj args kwargs w :
  confined attr → Forall confined pre → Forall confined post →
  obj < length (w_heap w) →
  (kwargs !! "inplace" = None ∧ declares_inplace attr = false)
  ∨ kwargs !! "inplace" = Some (VBool false) →
  let w' := (combi_hook attr pre post obj args kwargs w).2 in
  w_heap w' !! obj = w_heap w !! obj
  ∧ ∃ evs,
      w_log w' = w_log w ++ Copied obj (length (w_heap w)) :: evs
      ∧ Forall (spares obj) evs.
Proof.
  intros Hattr Hpre Hpost Hobj Hoff.
  assert (truthy (inplace_of kwargs) = false) as Hflag.
  { unfold inplace_of. destruct Hoff as [[-> _] | ->]; reflexivity. }
  destruct (combi_hook_copies attr pre post obj args kwargs w
              Hattr Hpre Hpost Hobj Hflag) as (Hp & evs & Hlog & Hevs).
  simpl. split; [exact Hp|]. exists evs. split; [exact Hlog|].
  eapply Forall_impl; [exact Hevs|]. intros e [He _]. exact He.
Qed.

(** C4 (amended): the two ways of having [inplace=True] differ.  When
    the caller passes a true [inplace], no copy is taken, whatever the
    hooks and the method do: every step the wrapper takes is a call, and
    the first call is made on the receiver itself.  If moreover every
    hook and the method, called with the arguments of this call, hand
    back the object they are given, every call is on the receiver and
    the value returned is the receiver, so both show the same state.
    When the flag is only synthesized (declared by the callable, omitted
    by the caller), the wrapper starts with [obj.copy()]; once that has
    returned the copy, hooks and method are passed [inplace=True] and
    are never given the receiver, which keeps the state it had. *)
Theorem inplace_passed_or_synthesized attr pre post obj args kwargs w :
  (∀ v, kwargs !! "inplace" = Some v → truthy v = true →
        let out := combi_hook attr pre post obj args kwargs w in
        extends is_call w out.2
        ∧ starts_on obj w out.2
        ∧ (hands_back args kwargs attr →
           Forall (hands_back args kwargs) pre →
           Forall (hands_back args kwargs) post →
           extends (call_on obj) w out.2
           ∧ ∀ obj', out.1 = Ok obj' → obj' = obj))
  ∧ (kwargs !! "inplace" = None → declares_inplace attr = true →
     confined attr → Forall confined pre → Forall confined post →
     obj < length (w_heap w) →
     let w' := (combi_hook attr pre post obj args kwargs w).2 in
     w_heap w' !! obj = w_heap w !! obj
     ∧ ∃ evs,
         w_log w' = w_log w ++ Copied obj (length (w_heap w)) :: evs
         ∧ Forall (λ e, spares obj e
                        ∧ passes args (<["inplace" := VBool true]> kwargs) e)
                  evs).
Proof.
  split.
  - intros v Hkw Hv.
    assert (combi_hook attr pre post obj args kwargs w
            = bind (run_hooks pre obj args kwargs)
                (λ obj1, bind (call attr obj1 args kwargs)
                   (λ obj2, run_hooks (reverse post) obj2 args kwargs)) w)
      as ->.
    { unfold combi_hook, inplace_of, kwargs_of. rewrite Hkw. simpl.
      rewrite Hv. reflexivity. }
    cbv zeta. split; [|split].
    + apply bind_extends; [by apply run_hooks_extends|].
      intros o1 w1. apply bind_extends; [by apply call_extends|].
      intros o2 w2. by apply run_hooks_extends.
    + apply chain_starts_on.
    + intros Hattr Hpre Hpost.
      apply bind_on_receiver; [by apply run_hooks_on_receiver|].
      intros w1. apply bind_on_receiver; [by apply call_on_receiver|].
      intros w2. apply run_hooks_on_receiver. by apply Forall_reverse.
  - intros Hkw Hdecl Hattr Hpre Hpost Hobj.
    assert (truthy (inplace_of kwargs) = false) as Hflag.
    { unfold inplace_of. rewrite Hkw. reflexivity. }
    pose proof (combi_hook_copies attr pre post obj args kwargs w
                  Hattr Hpre Hpost Hobj Hflag) as Hcopies.
    unfold kwargs_of in Hcopies. rewrite Hkw, Hdecl in Hcopies.
    exact Hcopies.
Qed.

(** C5 (amended): every hook, before and after, is called with the
    positional arguments of the outer call and with the keyword
    arguments the wrapped callable itself receives: those of the outer
    call, to which [inplace=True] has been added when the caller left
    [inplace] out and the callable declares it. *)
Theorem hooks_receive_arguments_of_callable attr pre post obj args kwargs w :
  extends
    (passes args
       (if bool_decide (kwargs !! "inplace" = None) && declares_inplace attr
        then <["inplace" := VBool true]> kwargs
        else kwargs))
    w (combi_hook attr pre post obj args kwargs w).2.
Proof.
  pose proof (combi_hook_passes attr pre post obj args kwargs w) as H.
  unfold kwargs_of in H.
  destruct (kwargs !! "inplace") as [v|] eqn:Hkw.
  - rewrite bool_decide_eq_false_2 by discriminate. exact H.
  - rewrite bool_decide_eq_true_2 by reflexivity. exact H.
Qed.

End CombiHookFacts.

(** ** On the counter objects *)

Lemma add_confined name args kwonly d :
  confined (PlugsMixin.Callable name args kwonly (Counter.add d)).
Proof.
  intros obj a k h r h' Hobj Hbody. simpl in Hbody. unfold Counter.add in Hbody.
  destruct (h !! obj) as [s|] eqn:Hs; inversion Hbody; subst; clear Hbody.
  - rewrite length_insert. split; [lia|]. split.
    + intros l _ Hne. apply list_lookup_insert_ne. congruence.
    + split; [exact Hobj | left; reflexivity].
  - split; [lia|]. split; [reflexivity | exact I].
Qed.

Lemma step_confined name args kwonly d :
  confined (PlugsMixin.Callable name args kwonly (Tiling.step d)).
Proof.
  intros obj a k h r h' Hobj Hbody. simpl in Hbody. unfold Tiling.step in Hbody.
  destruct (h !! obj) as [s|] eqn:Hs.
  - destruct (truthy _); inversion Hbody; subst; clear Hbody.
    + rewrite length_insert. split; [lia|]. split.
      * intros l _ Hne. apply list_lookup_insert_ne. congruence.
      * split; [exact Hobj | left; reflexivity].
    + rewrite length_app. simpl. split; [lia|]. split.
      * intros l Hl _. by apply lookup_app_l.
      * split; [lia | right; lia].
  - inversion Hbody; subst. split; [lia|]. split; [reflexivity | exact I].
Qed.

(** Told to work in place, [step] hands back what it was given. *)
Lemma step_hands_back name args' kwonly d args kwargs v :
  kwargs !! "inplace" = Some v → truthy v = true →
  hands_back args kwargs (PlugsMixin.Callable name args' kwonly (Tiling.step d)).
Proof.
  intros Hkw Hv obj h obj' h' Hbody. simpl in Hbody.
  unfold Tiling.step in Hbody. rewrite Hkw in Hbody. simpl in Hbody.
  rewrite Hv in Hbody.
  destruct (h !! obj); inversion Hbody; reflexivity.
Qed.

(** Without the flag it does not. *)
Example step_copies_by_default :
  Tiling.step 1 0 [] ∅ [5%Z] = (Ok 1, [5; 6]%Z).
Proof. reflexivity. Qed.

Ltac all_by lem :=
  repeat lazymatch goal with
         | |- Forall _ [] => constructor
         | |- Forall _ (_ :: _) => constructor; [apply lem|]
         end.

(** With the hooks registered under the names of their own plugs the loop
    does collect them, and the wrapper then runs [A.pre], [B.pre], [op],
    [B.post], [A.post] on one and the same object. *)
Example order_of_collected_hooks :
  let kw : gmap string pyval := {[ "inplace" := VBool true ]} in
  rbind (PlugsMixin.getattr 1000 Counter.host_two_own_names "op")
        (λ r, Ok (PlugsMixin.invoke r 0 [] kw (PlugsMixin.World [0%Z] [])))
  = Ok (Ok 0,
        PlugsMixin.World [11111%Z]
          [PlugsMixin.Called "A.pre" 0 [] kw;
           PlugsMixin.Called "B.pre" 0 [] kw;
           PlugsMixin.Called "op" 0 [] kw;
           PlugsMixin.Called "B.post" 0 [] kw;
           PlugsMixin.Called "A.post" 0 [] kw]).
Proof. vm_compute. reflexivity. Qed.

Lemma not_inplace_leaves_receiver_unchanged_witness :
  let w := PlugsMixin.World [5%Z] [] in
  let w' := (PlugsMixin.combi_hook Counter.op [Counter.a_pre] [Counter.a_post]
               0 [VInt 2] ∅ w).2 in
  PlugsMixin.w_heap w' !! 0 = Some 5%Z
  ∧ ∃ evs, PlugsMixin.w_log w' = PlugsMixin.Copied 0 1 :: evs
           ∧ Forall (spares 0) evs.
Proof.
  refine (not_inplace_leaves_receiver_unchanged
            Counter.op [Counter.a_pre] [Counter.a_post] 0 [VInt 2] ∅
            (PlugsMixin.World [5%Z] []) _ _ _ _ _).
  - apply add_confined.
  - all_by add_confined.
  - all_by add_confined.
  - simpl. lia.
  - left. split; reflexivity.
Defined.

(** C4 as stated fails when the flag is synthesized: [tile] declares
    [inplace], the caller passes no keyword, and the object returned is a
    copy in state 16 while the receiver stays in state 5. *)
Lemma synthesized_inplace_counterexample :
  ¬ (∀ (attr : @PlugsMixin.callable Z) pre post obj args kwargs
       (w : @PlugsMixin.world Z),
        kwargs !! "inplace" = Some (VBool true)
        ∨ (kwargs !! "inplace" = None
           ∧ PlugsMixin.declares_inplace attr = true) →
        let out := PlugsMixin.combi_hook attr pre post obj args kwargs w in
        extends (λ e, ∀ dst, e ≠ PlugsMixin.Copied obj dst) w out.2
        ∧ ∀ obj', out.1 = Ok obj' →
            PlugsMixin.w_heap out.2 !! obj' = PlugsMixin.w_heap out.2 !! obj).
Proof.
  intros H.
  specialize (H Tiling.tile [Tiling.tile_pre] [] 0 [VInt 2] ∅
                (PlugsMixin.World [5%Z] [])
                (or_intror (conj eq_refl eq_refl))).
  destruct H as [_ H]. specialize (H 1 eq_refl).
  vm_compute in H. discriminate H.
Qed.

(** On a method and a hook that honour the flag: passed [inplace=True]
    they work on the receiver, which ends in state 16 and is returned;
    with the flag left out, the wrapper copies, passes [inplace=True],
    and the receiver stays in state 5. *)
Lemma inplace_passed_or_synthesized_witness :
  let w := PlugsMixin.World [5%Z] [] in
  (let out := PlugsMixin.combi_hook Tiling.tile [Tiling.tile_pre] []
                0 [VInt 2] {[ "inplace" := VBool true ]} w in
   extends is_call w out.2
   ∧ starts_on 0 w out.2
   ∧ extends (call_on 0) w out.2
   ∧ ∀ obj', out.1 = Ok obj' → obj' = 0)
  ∧ (let w' := (PlugsMixin.combi_hook Tiling.tile [Tiling.tile_pre] []
                  0 [VInt 2] ∅ w).2 in
     PlugsMixin.w_heap w' !! 0 = Some 5%Z
     ∧ ∃ evs, PlugsMixin.w_log w' = PlugsMixin.Copied 0 1 :: evs
              ∧ Forall (λ e, spares 0 e
                             ∧ passes [VInt 2]
                                      (<["inplace" := VBool true]> ∅) e)
                       evs).
Proof.
  split.
  - assert (({[ "inplace" := VBool true ]} : gmap string pyval) !! "inplace"
            = Some (VBool true)) as Hkw by reflexivity.
    destruct (proj1 (inplace_passed_or_synthesized
                       Tiling.tile [Tiling.tile_pre] [] 0 [VInt 2]
                       {[ "inplace" := VBool true ]}
                       (PlugsMixin.World [5%Z] []))
                    (VBool true) Hkw eq_refl) as (Hcalls & Hfirst & Hon).
    split; [exact Hcalls|]. split; [exact Hfirst|]. apply Hon.
    + by apply (step_hands_back _ _ _ _ _ _ (VBool true)).
    + constructor; [|constructor].
      by apply (step_hands_back _ _ _ _ _ _ (VBool true)).
    + constructor.
  - refine (proj2 (inplace_passed_or_synthesized
                     Tiling.tile [Tiling.tile_pre] [] 0 [VInt 2]
                     ∅ (PlugsMixin.World [5%Z] []))
                  _ _ _ _ _ _).
    + reflexivity.
    + reflexivity.
    + apply step_confined.
    + all_by step_confined.
    + constructor.
    + simpl. lia.
Defined.

Example inplace_passed_on_tile :
  PlugsMixin.combi_hook Tiling.tile [Tiling.tile_pre] []
    0 [VInt 2] {[ "inplace" := VBool true ]} (PlugsMixin.World [5%Z] [])
  = (Ok 0,
     PlugsMixin.World [16%Z]
       [PlugsMixin.Called "P.pre" 0 [VInt 2] {[ "inplace" := VBool true ]};
        PlugsMixin.Called "tile" 0 [VInt 2] {[ "inplace" := VBool true ]}]).
Proof. vm_compute. reflexivity. Qed.

(** C5 as stated fails in the same situation: the caller passed no
    keyword argument at all, and the pre-hook is called with
    [inplace=True]. *)
Lemma hook_arguments_counterexample :
  ¬ (∀ (attr : @PlugsMixin.callable Z) pre post obj args kwargs
       (w : @PlugsMixin.world Z),
        extends (passes args kwargs) w
                (PlugsMixin.combi_hook attr pre post obj args kwargs w).2).
Proof.
  intros H.
  destruct (H Counter.op_inplace [Counter.a_pre] [] 0 [] ∅
              (PlugsMixin.World [5%Z] [])) as (evs & Hlog & Hevs).
  assert (evs = [PlugsMixin.Copied 0 1;
                 PlugsMixin.Called "A.pre" 1 [] {[ "inplace" := VBool true ]};
                 PlugsMixin.Called "op" 1 [] {[ "inplace" := VBool true ]}])
    as ->.
  { cbn [PlugsMixin.w_log app] in Hlog. rewrite <- Hlog.
    vm_compute. reflexivity. }
  apply Forall_cons in Hevs as [_ Hevs].
  apply Forall_cons in Hevs as [[_ Hkw] _].
  apply (f_equal (λ m : gmap string pyval, m !! "inplace")) in Hkw.
  vm_compute in Hkw. discriminate Hkw.
Qed.

(** The same at the recursion limit of CPython, on a new object. *)
Lemma init_raises_RecursionError_witness :
  (∅ : gmap string (@PlugsMixin.attr_value Z)) !! "_plugs" = None
  ∧ PlugsMixin.__init__ 1000 (∅ : gmap string (@PlugsMixin.attr_value Z))
    = (Raise RecursionError, ∅).
Proof.
  split; [reflexivity|].
  apply (init_raises_RecursionError 1000 ∅). reflexivity.
Defined.

Lemma setattr_on_plug_name_rejected_witness :
  PlugsMixin.__setattr__ 1000 "a" (PlugsMixin.AData (VInt 3)) Counter.host_one_pre
  = (Raise AttributeError, Counter.host_one_pre).
Proof.
  refine (proj1 (setattr_on_plug_name_rejected 1000 Counter.host_one_pre
                   _ "a" (PlugsMixin.AData (VInt 3)) _ _ _)).
  - lia.
  - reflexivity.
  - simpl. apply list_elem_of_here.
Defined.

Lemma pre_hook_for_op_is_not_collected_witness :
  PlugsMixin.getattr 1000 Counter.host_one_pre "op"
  = Ok (PlugsMixin.Plain (PlugsMixin.AFunc Counter.op))
  ∧ PlugsMixin.w_log
      (PlugsMixin.invoke (PlugsMixin.Plain (PlugsMixin.AFunc Counter.op))
         0 [VInt 2] ∅ (PlugsMixin.World [5%Z] [])).2
    = [PlugsMixin.Called "op" 0 [VInt 2] ∅].
Proof.
  refine (pre_hook_for_op_is_not_collected 1000 Counter.host_one_pre
            "a" "op" Counter.a_pre Counter.op 0 [VInt 2] ∅
            (PlugsMixin.World [5%Z] []) _ _ _ _).
  - lia.
  - discriminate.
  - reflexivity.
  - reflexivity.
Defined.

Lemma hooks_for_op_of_two_plugs_are_not_collected_witness :
  PlugsMixin.getattr 1000 Counter.host_two "op"
  = Ok (PlugsMixin.Plain (PlugsMixin.AFunc Counter.op))
  ∧ PlugsMixin.w_log
      (PlugsMixin.invoke (PlugsMixin.Plain (PlugsMixin.AFunc Counter.op))
         0 [] ∅ (PlugsMixin.World [5%Z] [])).2
    = [PlugsMixin.Called "op" 0 [] ∅].
Proof.
  refine (hooks_for_op_of_two_plugs_are_not_collected 1000 Counter.host_two
            "A" "B" "op" Counter.a_pre Counter.a_post Counter.b_pre
            Counter.b_post Counter.op 0 [] ∅
            (PlugsMixin.World [5%Z] []) _ _ _ _ _).
  - lia.
  - discriminate.
  - discriminate.
  - reflexivity.
  - reflexivity.
Defined.

(** * Properties of [Metric] *)

Section MetricFacts.

Context {V R : Type} {operands : ArrayLike V R}.

(** C10 (amended): with [M] the transform given at construction, or
    the identity when none was given, [inner(a, b)] returns what
    [a.dot(M(b))] returns whenever that attempt returns; when the
    attempt raises, whatever it raises, the result is that of
    [(a * M(b)).sum()], be it a value or another exception.  So
    [inner(a, b)] is [sum(a * M(b))] exactly when [dot] raises or agrees
    with the sum of the elementwise product. *)
Theorem inner_dot_then_fallback (metric : option (V → result V)) (a b : V) :
  let self := Metric.__init__ metric in
  let M := default (λ x, Ok x) metric in
  let native := rbind (M b) (dot a) in
  let summed := rbind (rbind (M b) (mul a)) sum in
  (∀ r, native = Ok r → Metric.inner self a b = Ok r)
  ∧ (∀ e, native = Raise e → Metric.inner self a b = summed)
  ∧ (Metric.inner self a b = summed ↔ ∀ r, native = Ok r → summed = Ok r).
Proof.
  intros self M native summed.
  assert (Metric._metric self = M) as HM by (by destruct metric).
  unfold Metric.inner. rewrite HM. fold native. fold summed.
  split; [|split].
  - intros r ->. reflexivity.
  - intros e ->. reflexivity.
  - destruct native as [r|e].
    + split.
      * intros Heq r' [= <-]. by symmetry.
      * intros Hagree. symmetry. by apply Hagree.
    + split; [discriminate | reflexivity].
Qed.

End MetricFacts.

(** For one-dimensional arrays [dot], where it is defined, is the sum of
    the elementwise product. *)
Lemma vdot_is_sum_of_products (x y : list Z) (r : Z) :
  dot x y = Ok r → rbind (mul x y) sum = Ok r.
Proof.
  simpl. unfold IntVector.vdot, IntVector.vmul, IntVector.vsum.
  destruct (decide (length x = length y)); [|discriminate].
  simpl. congruence.
Qed.

(** With the default metric: through [dot] for arrays of equal length,
    where the result is also the sum of products; through the fallback
    for shapes that [dot] rejects and [*] broadcasts; and through [dot]
    for two-dimensional arrays, where the result is the matrix product
    and not the sum of products. *)
Lemma inner_dot_then_fallback_witness :
  (Metric.inner (Metric.__init__ None) [1; 2; 3]%Z [4; 5; 6]%Z = Ok 32%Z
   ∧ Metric.inner (Metric.__init__ None) [1; 2; 3]%Z [4; 5; 6]%Z
     = rbind (mul [1; 2; 3]%Z [4; 5; 6]%Z) sum)
  ∧ Metric.inner (Metric.__init__ None) [1; 2; 3]%Z [2]%Z = Ok 12%Z
  ∧ Metric.inner (Metric.__init__ None) [[1; 2]; [3; 4]]%Z [[1; 0]; [0; 1]]%Z
    = Ok (IntMatrix.Array [[1; 2]; [3; 4]]%Z).
Proof.
  split; [split|split].
  - exact (proj1 (inner_dot_then_fallback None [1; 2; 3]%Z [4; 5; 6]%Z)
             32%Z eq_refl).
  - apply (proj2 (proj2 (inner_dot_then_fallback None [1; 2; 3]%Z [4; 5; 6]%Z))).
    intros r. apply vdot_is_sum_of_products.
  - exact (proj1 (proj2 (inner_dot_then_fallback None [1; 2; 3]%Z [2]%Z))
             ValueError eq_refl).
  - exact (proj1 (inner_dot_then_fallback (operands := IntMatrix.int_matrix) None
                    [[1; 2]; [3; 4]]%Z [[1; 0]; [0; 1]]%Z)
             (IntMatrix.Array [[1; 2]; [3; 4]]%Z) eq_refl).
Defined.

(** C10 as stated fails for two-dimensional arrays: [a.dot(b)] returns,
    with the matrix product, and that is what [inner] returns, while
    [sum(a * b)] is a number. *)
Lemma inner_of_matrices_counterexample :
  ¬ (∀ (V R : Type) (H : ArrayLike V R) (metric : option (V → result V))
       (a b : V),
       Metric.inner (Metric.__init__ metric) a b
       = rbind (rbind (default (λ x, Ok x) metric b) (mul a)) sum).
Proof.
  intros H.
  specialize (H (list (list Z)) IntMatrix.value IntMatrix.int_matrix None
                [[1; 2]; [3; 4]]%Z [[1; 0]; [0; 1]]%Z).
  vm_compute in H. discriminate H.
Qed.

(** * Properties of [History] *)

Section IndexFacts.

Lemma py_index_raises n i e : py_index n i = Raise e → e = IndexError.
Proof.
  unfold py_index. destruct (_ && _)%Z; [discriminate|]. congruence.
Qed.

Lemma py_index_lt n i k : py_index n i = Ok k → k < n.
Proof.
  unfold py_index.
  destruct (i <? 0)%Z eqn:Hneg;
    destruct (_ && _)%Z eqn:Hin; try discriminate;
    intros [= <-]; apply andb_true_iff in Hin as [H1 H2]; lia.
Qed.

Lemma py_index_nonneg n i :
  (0 ≤ i < Z.of_nat n)%Z → py_index n i = Ok (Z.to_nat i).
Proof.
  intros Hi. unfold py_index.
  destruct (i <? 0)%Z eqn:Hneg; [lia|].
  destruct (_ && _)%Z eqn:Hin; [reflexivity|].
  apply andb_false_iff in Hin as [H|H]; lia.
Qed.

Lemma py_index_valid n i :
  (- Z.of_nat n ≤ i < Z.of_nat n)%Z → ∃ k, py_index n i = Ok k.
Proof.
  intros Hi. unfold py_index.
  destruct (i <? 0)%Z eqn:Hneg;
    (destruct (_ && _)%Z eqn:Hin; [eauto|]);
    apply andb_false_iff in Hin as [H|H]; lia.
Qed.

Lemma range_resolves n :
  Forall2 (λ v k, py_index n v = Ok k) (range n) (seq 0 n).
Proof.
  unfold range. apply Forall2_fmap_l, Forall_Forall2_diag, Forall_forall.
  intros k Hk%elem_of_seq. unfold compose.
  rewrite py_index_nonneg by lia. f_equal. lia.
Qed.

End IndexFacts.

Section HistoryFacts.

Context {A : Type}.
Import History.
Implicit Types (self : History.t A) (d : Deque.t A).

Lemma on_slot_ok v (op : Deque.t A → result (Deque.t A)) self k d d' :
  py_index (length (_hist self)) v = Ok k →
  _hist self !! k = Some d →
  op d = Ok d' →
  on_slot v op self = (Ok tt, Make (<[k := d']> (_hist self))).
Proof. intros Hk Hd Hop. unfold on_slot. rewrite Hk, Hd, Hop. done. Qed.

(** A slot statement whose mutation cannot fail raises [IndexError] or
    nothing. *)
Lemma on_slot_total_raises v (op : Deque.t A → Deque.t A) self e :
  (on_slot v (λ d, Ok (op d)) self).1 = Raise e → e = IndexError.
Proof.
  unfold on_slot.
  destruct (py_index _ v) as [k|e'] eqn:Hk; simpl.
  - destruct (_hist self !! k); simpl; [discriminate | congruence].
  - intros [= <-]. by apply py_index_raises in Hk.
Qed.

Lemma for_each_raises {X} (xs : list X) (body : X → M (History.t A) unit)
    (P : exn → Prop) self e :
  (∀ x self e, (body x self).1 = Raise e → P e) →
  (for_each xs body self).1 = Raise e → P e.
Proof.
  intros Hbody. revert self. induction xs as [|x xs IH]; intros self; simpl.
  - discriminate.
  - unfold bind.
    destruct (body x self) as [[u|e'] self1] eqn:Hslot; simpl.
    + apply IH.
    + intros [= <-]. apply (Hbody x self). by rewrite Hslot.
Qed.

Lemma append_loop_raises (pairs : list (Z * A)) self e :
  (for_each pairs (λ '(i, arg), on_slot i (λ d, Ok (Deque.append d arg)))
            self).1 = Raise e →
  e = IndexError.
Proof.
  apply (for_each_raises pairs _ (λ e, e = IndexError)).
  intros [i arg] self0 e0.
  apply (on_slot_total_raises i (λ d, Deque.append d arg)).
Qed.

Lemma append_loop n (pairs : list (Z * A)) self :
  length (_hist self) = n →
  Forall (λ p, - Z.of_nat n ≤ p.1 < Z.of_nat n)%Z pairs →
  ∃ self',
    for_each pairs (λ '(i, arg), on_slot i (λ d, Ok (Deque.append d arg))) self
    = (Ok tt, self')
    ∧ length (_hist self') = n
    ∧ ∀ k d, _hist self !! k = Some d →
        _hist self' !! k
        = Some (foldl Deque.append d
                  (omap (λ '(i, arg),
                           if decide (py_index n i = Ok k) then Some arg
                           else None) pairs)).
Proof.
  intros Hn Hvalid. revert self Hn.
  induction Hvalid as [|[i x] pairs Hi Hvalid IH]; intros self Hn.
  - exists self. simpl. unfold ret. auto.
  - simpl in Hi. destruct (py_index_valid n i Hi) as [ki Hki].
    pose proof (py_index_lt _ _ _ Hki) as Hlt.
    destruct (lookup_lt_is_Some_2 (_hist self) ki) as [di Hdi]; [lia|].
    set (self1 := Make (<[ki := Deque.append di x]> (_hist self))).
    destruct (IH self1) as (self' & Hrun & Hlen & Hslots).
    { unfold self1. simpl. by rewrite length_insert. }
    exists self'. split; [|split; [exact Hlen|]].
    + simpl. unfold bind.
      rewrite (on_slot_ok i _ self ki di (Deque.append di x));
        [exact Hrun | by rewrite Hn | exact Hdi | reflexivity].
    + intros k d Hd. simpl.
      destruct (decide (py_index n i = Ok k)) as [Heq|Hne].
      * assert (k = ki) as -> by congruence.
        assert (d = di) as -> by congruence.
        simpl. apply Hslots. unfold self1. simpl.
        apply list_lookup_insert_eq. lia.
      * apply Hslots. unfold self1. simpl.
        rewrite list_lookup_insert_ne; [exact Hd | congruence].
Qed.

Lemma Forall_zip_fst {B} (P : Z → Prop) (vs : list Z) (xs : list B) :
  Forall P vs → Forall (λ p, P p.1) (zip vs xs).
Proof.
  intros Hvs. revert xs. induction Hvs as [|v vs Hv Hvs IH]; intros [|x xs];
    simpl; constructor; auto.
Qed.

Lemma py_index_slot_of n v :
  names_slot n v → py_index n v = Ok (slot_of n v).
Proof.
  unfold names_slot, py_index, slot_of. intros Hv.
  destruct (v <? 0)%Z eqn:Hneg; destruct (decide (v < 0)%Z); try lia;
    (destruct (_ && _)%Z eqn:Hin; [reflexivity|]);
    apply andb_false_iff in Hin as [H|H]; lia.
Qed.

Lemma py_index_names_slot n v k : py_index n v = Ok k → names_slot n v.
Proof.
  unfold names_slot, py_index.
  destruct (v <? 0)%Z eqn:Hneg; destruct (_ && _)%Z eqn:Hin;
    try discriminate; intros _;
    apply andb_true_iff in Hin as [H1 H2]; lia.
Qed.

Lemma destined_resolves n k (vs : list Z) (args : list A) :
  Forall (names_slot n) vs →
  omap (λ '(i, arg), if decide (py_index n i = Ok k) then Some arg else None)
       (zip vs args)
  = destined n k vs args.
Proof.
  unfold destined. intros Hvs. revert args.
  induction Hvs as [|v vs Hv Hvs IH]; intros [|x args]; simpl;
    try reflexivity.
  rewrite IH, (py_index_slot_of n v Hv).
  destruct (decide (slot_of n v = k)) as [->|Hne].
  - by rewrite decide_True.
  - rewrite decide_False; [reflexivity | congruence].
Qed.

(** A loop of slot statements that has run to its end found every slot
    it was asked for. *)
Lemma append_loop_returned n (pairs : list (Z * A)) self :
  length (_hist self) = n →
  (for_each pairs (λ '(i, arg), on_slot i (λ d, Ok (Deque.append d arg)))
            self).1 = Ok tt →
  Forall (λ p, names_slot n p.1) pairs.
Proof.
  revert self. induction pairs as [|[i x] pairs IH]; intros self Hn; simpl.
  - constructor.
  - unfold bind, on_slot. rewrite Hn.
    destruct (py_index n i) as [k|e] eqn:Hk; [|discriminate].
    destruct (_hist self !! k) as [d|] eqn:Hd; [|discriminate].
    intros Hrest. constructor.
    + simpl. by eapply py_index_names_slot.
    + eapply IH; [|exact Hrest]. simpl. by rewrite length_insert.
Qed.

(** C8 (amended): [append] raises [ValueError] exactly when the number
    of values differs from the number of selected slots (all of them
    when [variables] is omitted), and then the history is what it was.
    When the numbers agree, the call returns if every selected number
    names an existing slot, and every slot then holds what it held
    followed by the values meant for it, appended one by one with the
    deque's own [append] and in the order they were passed; if some
    selected number names no slot, the call raises [IndexError]. *)
Theorem append_length_mismatch self (args : list A) variables_ :
  let n := length (_hist self) in
  let sel := chosen n variables_ in
  let out := append args variables_ self in
  (out.1 = Raise ValueError ↔ length args ≠ length sel)
  ∧ (out.1 = Raise ValueError → out.2 = self)
  ∧ (length args = length sel →
     Forall (names_slot n) sel →
     out.1 = Ok tt
     ∧ length (_hist out.2) = n
     ∧ ∀ k d, _hist self !! k = Some d →
         _hist out.2 !! k
         = Some (foldl Deque.append d (destined n k sel args)))
  ∧ (length args = length sel →
     ¬ Forall (names_slot n) sel →
     out.1 = Raise IndexError).
Proof.
  intros n sel out. subst out. unfold append.
  change (selected self variables_) with sel.
  destruct (decide (length args ≠ length sel)) as [Hne|Heq].
  - simpl. split; [tauto|]. split; [reflexivity|]. split; tauto.
  - split; [|split; [|split]].
    + split; [|tauto]. intros Hraise.
      apply append_loop_raises in Hraise. discriminate.
    + intros Hraise. exfalso.
      apply append_loop_raises in Hraise. discriminate.
    + intros _ Hvalid.
      destruct (append_loop n (zip sel args) self eq_refl
                  (Forall_zip_fst (names_slot n) _ _ Hvalid))
        as (self' & Hrun & Hlen & Hslots).
      rewrite Hrun. simpl. split; [reflexivity|]. split; [exact Hlen|].
      intros k d Hd. rewrite (Hslots k d Hd).
      by rewrite destined_resolves.
    + intros Hlen Hbad.
      destruct (for_each (zip sel args) _ self) as [[[]|e] self'] eqn:Hrun;
        simpl.
      * exfalso. apply Hbad.
        pose proof (append_loop_returned n (zip sel args) self eq_refl)
          as Hall.
        rewrite Hrun in Hall. specialize (Hall eq_refl).
        apply Forall_fmap in Hall. rewrite fst_zip in Hall by lia.
        exact Hall.
      * f_equal.
        apply (append_loop_raises (zip sel args) self). by rewrite Hrun.
Qed.

End HistoryFacts.

(** ** Deleting listed positions *)

Section SurvivingFacts.

Context {A : Type}.
Implicit Types (l : list A) (index js : list Z).

Lemma surviving_from_ext pos index index' l :
  (∀ i, i ∈ index ↔ i ∈ index') →
  surviving_from pos index l = surviving_from pos index' l.
Proof.
  intros Hsame. revert pos. induction l as [|x l IH]; intros pos; simpl.
  - reflexivity.
  - rewrite IH.
    destruct (decide (Z.of_nat pos ∈ index)) as [Hin|Hout];
      destruct (decide (Z.of_nat pos ∈ index')) as [Hin'|Hout'];
      try reflexivity; exfalso;
      [apply Hout', Hsame, Hin | apply Hout, Hsame, Hin'].
Qed.

Lemma surviving_from_all pos index l :
  Forall (λ i, i < Z.of_nat pos)%Z index →
  surviving_from pos index l = l.
Proof.
  revert pos. induction l as [|x l IH]; intros pos Hbelow; simpl.
  - reflexivity.
  - destruct (decide (Z.of_nat pos ∈ index)) as [Hin|Hout].
    + rewrite Forall_forall in Hbelow. apply Hbelow in Hin. lia.
    + f_equal. apply IH. eapply Forall_impl; [exact Hbelow|].
      intros i Hi. simpl in *. lia.
Qed.

(** Deleting position [j] first and filtering by lower positions then
    is filtering by all of them at once. *)
Lemma surviving_from_delete pos (j : nat) js l :
  Forall (λ i, i < Z.of_nat (pos + j))%Z js →
  j < length l →
  surviving_from pos js (delete j l)
  = surviving_from pos (Z.of_nat (pos + j) :: js) l.
Proof.
  revert pos j. induction l as [|x l IH]; intros pos j Hjs Hj; simpl in Hj.
  - lia.
  - destruct j as [|j].
    + replace (pos + 0) with pos in * by lia. simpl.
      rewrite decide_True by apply list_elem_of_here.
      rewrite surviving_from_all by exact Hjs.
      symmetry. apply surviving_from_all.
      constructor; [lia|]. eapply Forall_impl; [exact Hjs|].
      intros i Hi. simpl in *. lia.
    + simpl. replace (pos + S j) with (S pos + j) in * by lia.
      rewrite IH by (auto; lia).
      destruct (decide (Z.of_nat pos ∈ js)) as [Hin|Hout].
      * rewrite decide_True by (by apply list_elem_of_further).
        reflexivity.
      * rewrite decide_False; [reflexivity|].
        intros [Heq|Hin]%elem_of_cons; [lia | contradiction].
Qed.

(** Deleting from the highest listed position down to the lowest
    removes exactly the listed positions of the original list. *)
Lemma delete_descending js l :
  StronglySorted (λ x y, y < x)%Z js →
  Forall (λ j, 0 ≤ j < Z.of_nat (length l))%Z js →
  foldl (λ l j, delete (Z.to_nat j) l) l js = surviving js l.
Proof.
  intros Hsorted. revert l.
  induction Hsorted as [|j js Hsorted IH Hbelow]; intros l Hrange; simpl.
  - unfold surviving. symmetry. apply surviving_from_all. constructor.
  - apply Forall_cons in Hrange as [Hj Hrange].
    assert (length (delete (Z.to_nat j) l) = length l - 1) as Hlen.
    { apply length_delete, lookup_lt_is_Some. lia. }
    rewrite IH.
    + unfold surviving.
      rewrite (surviving_from_delete 0 (Z.to_nat j)); simpl.
      * rewrite Z2Nat.id by lia. reflexivity.
      * eapply Forall_impl; [exact Hbelow|]. intros i Hi. simpl in *. lia.
      * lia.
    + rewrite Hlen. rewrite Forall_forall in Hbelow, Hrange.
      apply Forall_forall. intros i Hi.
      specialize (Hbelow i Hi). specialize (Hrange i Hi). simpl in *. lia.
Qed.

Lemma sort_reverse_perm index : sort_reverse index ≡ₚ index.
Proof. apply merge_sort_Permutation. Qed.

Lemma descending_strict js :
  StronglySorted (flip Z.le) js → NoDup js →
  StronglySorted (λ x y, y < x)%Z js.
Proof.
  induction 1 as [|j js Hsorted IH Hbelow]; intros Hnd; constructor.
  - apply IH. by apply NoDup_cons in Hnd as [_ ?].
  - apply NoDup_cons in Hnd as [Hout _].
    rewrite Forall_forall in Hbelow. apply Forall_forall. intros i Hi.
    specialize (Hbelow i Hi). unfold flip in Hbelow.
    assert (i ≠ j) by (intros ->; contradiction). lia.
Qed.

Lemma sort_reverse_strict index :
  NoDup index → StronglySorted (λ x y, y < x)%Z (sort_reverse index).
Proof.
  intros Hnd. apply descending_strict.
  - apply StronglySorted_merge_sort.
    + intros x y z. unfold flip. lia.
    + intros x y. unfold flip. lia.
  - by rewrite sort_reverse_perm.
Qed.

End SurvivingFacts.

Section ClearFacts.

Context {A : Type}.
Import History.
Implicit Types (self : History.t A) (d : Deque.t A).

Lemma delitem_ok d j :
  (0 ≤ j < Z.of_nat (length (Deque.items d)))%Z →
  Deque.delitem d j
  = Ok (Deque.Make (Deque.maxlen d) (delete (Z.to_nat j) (Deque.items d))).
Proof.
  intros Hj. unfold Deque.delitem. rewrite py_index_nonneg by exact Hj.
  reflexivity.
Qed.

(** The inner loop of [clear] on one slot. *)
Lemma delitems_loop js v self k d :
  py_index (length (_hist self)) v = Ok k →
  _hist self !! k = Some d →
  StronglySorted (λ x y, y < x)%Z js →
  Forall (λ j, 0 ≤ j < Z.of_nat (length (Deque.items d)))%Z js →
  for_each js (λ i, on_slot v (λ d, Deque.delitem d i)) self
  = (Ok tt,
     Make (<[k := Deque.Make (Deque.maxlen d)
                    (foldl (λ l j, delete (Z.to_nat j) l) (Deque.items d) js)]>
             (_hist self))).
Proof.
  intros Hk Hd Hsorted. revert self d Hk Hd.
  induction Hsorted as [|j js Hsorted IH Hbelow]; intros self d Hk Hd Hrange.
  - simpl. unfold ret. f_equal.
    destruct self as [h], d as [m its]; simpl in *. f_equal.
    symmetry. by apply list_insert_id.
  - apply Forall_cons in Hrange as [Hj Hrange]. simpl. unfold bind.
    rewrite (on_slot_ok v _ self k d _ Hk Hd (delitem_ok d j Hj)).
    set (d1 := Deque.Make (Deque.maxlen d)
                 (delete (Z.to_nat j) (Deque.items d))).
    rewrite (IH (Make (<[k := d1]> (_hist self))) d1); simpl.
    + by rewrite list_insert_insert_eq.
    + by rewrite length_insert.
    + apply list_lookup_insert_eq. by apply py_index_lt in Hk.
    + rewrite length_delete by (apply lookup_lt_is_Some; lia).
      rewrite Forall_forall in Hbelow, Hrange.
      apply Forall_forall. intros i Hi.
      specialize (Hbelow i Hi). specialize (Hrange i Hi). simpl in *. lia.
Qed.

(** The outer loop of [clear] over the selected slots. *)
Lemma clear_loop index vs ks self n :
  length (_hist self) = n →
  Forall2 (λ v k, py_index n v = Ok k) vs ks →
  NoDup ks →
  NoDup index →
  (∀ k d, k ∈ ks → _hist self !! k = Some d →
          Forall (λ i, 0 ≤ i < Z.of_nat (length (Deque.items d)))%Z index) →
  ∃ self',
    for_each vs
      (λ v, for_each (sort_reverse index)
              (λ i, on_slot v (λ d, Deque.delitem d i))) self
    = (Ok tt, self')
    ∧ length (_hist self') = n
    ∧ ∀ k d, _hist self !! k = Some d →
        _hist self' !! k
        = Some (if decide (k ∈ ks)
                then Deque.Make (Deque.maxlen d)
                       (surviving index (Deque.items d))
                else d).
Proof.
  intros Hn Hres. revert self Hn.
  induction Hres as [|v k vs ks Hvk Hres IH];
    intros self Hn Hnd Hndi Hrange.
  - exists self. simpl. unfold ret. split; [reflexivity|].
    split; [exact Hn|]. intros k d Hd.
    destruct (decide (k ∈ [])) as [Hin|_]; [|exact Hd].
    by apply not_elem_of_nil in Hin.
  - apply NoDup_cons in Hnd as [Hk Hnd].
    pose proof (py_index_lt _ _ _ Hvk) as Hlt.
    destruct (lookup_lt_is_Some_2 (_hist self) k) as [dk Hdk]; [lia|].
    pose proof (Hrange k dk (list_elem_of_here _ _) Hdk) as Hrk.
    set (dk' := Deque.Make (Deque.maxlen dk)
                  (surviving index (Deque.items dk))).
    set (self1 := Make (<[k := dk']> (_hist self))).
    assert (for_each (sort_reverse index)
              (λ i, on_slot v (λ d, Deque.delitem d i)) self
            = (Ok tt, self1)) as Hinner.
    { rewrite (delitems_loop (sort_reverse index) v self k dk).
      - rewrite delete_descending.
        + unfold self1, dk', surviving.
          rewrite (surviving_from_ext 0 (sort_reverse index) index);
            [reflexivity|].
          intros i. by rewrite sort_reverse_perm.
        + by apply sort_reverse_strict.
        + by rewrite sort_reverse_perm.
      - by rewrite Hn.
      - exact Hdk.
      - by apply sort_reverse_strict.
      - by rewrite sort_reverse_perm. }
    destruct (IH self1) as (self' & Hrun & Hlen & Hslots).
    + unfold self1. simpl. by rewrite length_insert.
    + exact Hnd.
    + exact Hndi.
    + intros k' d Hk' Hd. apply (Hrange k' d).
      * by apply list_elem_of_further.
      * unfold self1 in Hd. simpl in Hd.
        rewrite list_lookup_insert_ne in Hd; [exact Hd|].
        intros ->. contradiction.
    + exists self'. split; [|split; [exact Hlen|]].
      * simpl. unfold bind. rewrite Hinner. exact Hrun.
      * intros k0 d Hd. destruct (decide (k0 = k)) as [->|Hne].
        -- assert (d = dk) as -> by congruence.
           rewrite decide_True by apply list_elem_of_here.
           rewrite (Hslots k dk').
           ++ by rewrite decide_False.
           ++ unfold self1. simpl. apply list_lookup_insert_eq. lia.
        -- rewrite (Hslots k0 d).
           ++ destruct (decide (k0 ∈ ks)) as [Hin|Hout].
              ** rewrite decide_True by (by apply list_elem_of_further).
                 reflexivity.
              ** rewrite decide_False; [reflexivity|].
                 intros [?|?]%elem_of_cons; contradiction.
           ++ unfold self1. simpl.
              rewrite list_lookup_insert_ne; [exact Hd | congruence].
Qed.

(** C9 (amended): [clear(index=...)] returns when the positions are
    pairwise distinct, the selection names existing slots, each at most
    once, and every position is non-negative and lies within every
    selected slot.  Every selected slot has then lost exactly the
    elements whose position before the call was listed, the others
    staying in their original order, and the slots that were not
    selected are untouched. *)
Theorem clear_deletes_listed_positions self index variables_ :
  let n := length (_hist self) in
  let sel := chosen n variables_ in
  NoDup index →
  Forall (names_slot n) sel →
  NoDup (slot_of n <$> sel) →
  (∀ v d, v ∈ sel → _hist self !! slot_of n v = Some d →
          Forall (λ i, 0 ≤ i < Z.of_nat (length (Deque.items d)))%Z index) →
  let out := clear (Some index) variables_ self in
  out.1 = Ok tt
  ∧ length (_hist out.2) = n
  ∧ ∀ k d, _hist self !! k = Some d →
      _hist out.2 !! k
      = Some (if decide (k ∈ slot_of n <$> sel)
              then Deque.Make (Deque.maxlen d)
                     (surviving index (Deque.items d))
              else d).
Proof.
  intros n sel Hndi Hsel Hnd Hrange. unfold clear.
  change (selected self variables_) with sel.
  destruct (clear_loop index sel (slot_of n <$> sel) self n eq_refl)
    as (self' & Hrun & Hlen & Hslots).
  - apply Forall2_fmap_r, Forall_Forall2_diag.
    eapply Forall_impl; [exact Hsel|]. intros v Hv.
    by apply py_index_slot_of.
  - exact Hnd.
  - exact Hndi.
  - intros k d (v & -> & Hv)%list_elem_of_fmap Hd. by apply (Hrange v d).
  - cbv zeta. rewrite Hrun. cbn [fst snd]. auto.
Qed.

End ClearFacts.

(** ** On concrete histories *)

(** Two slots bounded at three elements, the first one full: appending
    to all slots evicts the oldest element of the first; with the slots
    named from the end the values go the other way round. *)
Lemma append_length_mismatch_witness :
  let self := History.Make [Deque.Make (Some 3) [1; 2; 3]%Z;
                            Deque.Make (Some 3) [4]%Z] in
  ((History.append [7; 8]%Z None self).1 = Ok tt
   ∧ History._hist (History.append [7; 8]%Z None self).2 !! 0
     = Some (Deque.Make (Some 3) [2; 3; 7]%Z)
   ∧ History._hist (History.append [7; 8]%Z None self).2 !! 1
     = Some (Deque.Make (Some 3) [4; 8]%Z))
  ∧ ((History.append [7; 8]%Z (Some [-1; 0]%Z) self).1 = Ok tt
     ∧ History._hist (History.append [7; 8]%Z (Some [-1; 0]%Z) self).2 !! 0
       = Some (Deque.Make (Some 3) [2; 3; 8]%Z)
     ∧ History._hist (History.append [7; 8]%Z (Some [-1; 0]%Z) self).2 !! 1
       = Some (Deque.Make (Some 3) [4; 7]%Z))
  ∧ (History.append [7; 8]%Z (Some [0; 5]%Z) self).1 = Raise IndexError.
Proof.
  intros self. split; [|split].
  - destruct (append_length_mismatch self [7; 8]%Z None) as (_ & _ & H & _).
    destruct H as (Hok & _ & Hslots).
    + reflexivity.
    + change (Forall (names_slot 2) [0; 1]%Z).
      repeat (constructor; [unfold names_slot; lia|]). constructor.
    + split; [exact Hok|]. split.
      * exact (Hslots 0 _ eq_refl).
      * exact (Hslots 1 _ eq_refl).
  - destruct (append_length_mismatch self [7; 8]%Z (Some [-1; 0]%Z))
      as (_ & _ & H & _).
    destruct H as (Hok & _ & Hslots).
    + reflexivity.
    + change (Forall (names_slot 2) [-1; 0]%Z).
      repeat (constructor; [unfold names_slot; lia|]). constructor.
    + split; [exact Hok|]. split.
      * exact (Hslots 0 _ eq_refl).
      * exact (Hslots 1 _ eq_refl).
  - destruct (append_length_mismatch self [7; 8]%Z (Some [0; 5]%Z))
      as (_ & _ & _ & H).
    apply H; [reflexivity|].
    change (¬ Forall (names_slot 2) [0; 5]%Z).
    intros Hall. apply Forall_cons in Hall as [_ Hall].
    apply Forall_cons in Hall as [H5 _]. unfold names_slot in H5. lia.
Defined.

(** C8 as stated fails when the selection names a slot that does not
    exist: [append(7, 8, variables=[0, 5])] on two slots is given as many
    values as slots selected, and yet raises, [IndexError], instead of
    appending each value. *)
Lemma append_missing_slot_counterexample :
  ¬ (∀ (self : History.t Z) (args : list Z) variables_,
       let n := length (History._hist self) in
       let sel := chosen n variables_ in
       let out := History.append args variables_ self in
       (out.1 = Raise ValueError ↔ length args ≠ length sel)
       ∧ (out.1 = Raise ValueError → out.2 = self)
       ∧ (length args = length sel →
          out.1 = Ok tt
          ∧ ∀ k d, History._hist self !! k = Some d →
              History._hist out.2 !! k
              = Some (foldl Deque.append d (destined n k sel args)))).
Proof.
  intros H.
  destruct (H (History.Make [Deque.Make (Some 3) [1]%Z; Deque.Make (Some 3) []])
              [7; 8]%Z (Some [0; 5]%Z)) as (_ & _ & Hthen).
  destruct (Hthen eq_refl) as [Hok _].
  vm_compute in Hok. discriminate Hok.
Qed.

(** A mismatch is reported before anything is appended. *)
Example append_mismatch_changes_nothing :
  let self := History.Make [Deque.Make (Some 3) [1]%Z; Deque.Make (Some 3) []] in
  History.append [7]%Z None self = (Raise ValueError, self).
Proof. reflexivity. Qed.

(** [clear(index=[0, 2])] on a slot of four. *)
Example clear_0_2_of_four {A} (a b c d : A) m :
  History.clear (Some [0; 2]%Z) None (History.Make [Deque.Make m [a; b; c; d]])
  = (Ok tt, History.Make [Deque.Make m [b; d]]).
Proof. reflexivity. Qed.

(** Two slots of four, the second one selected by [-1]; and the same
    call with every slot selected. *)
Lemma clear_deletes_listed_positions_witness :
  let self := History.Make [Deque.Make (Some 4) [10; 11; 12; 13]%Z;
                            Deque.Make (Some 4) [20; 21; 22; 23]%Z] in
  (let out := History.clear (Some [0; 2]%Z) (Some [-1]%Z) self in
   out.1 = Ok tt
   ∧ History._hist out.2 !! 0 = Some (Deque.Make (Some 4) [10; 11; 12; 13]%Z)
   ∧ History._hist out.2 !! 1 = Some (Deque.Make (Some 4) [21; 23]%Z))
  ∧ (let out := History.clear (Some [0; 2]%Z) None self in
     out.1 = Ok tt
     ∧ History._hist out.2 !! 0 = Some (Deque.Make (Some 4) [11; 13]%Z)
     ∧ History._hist out.2 !! 1 = Some (Deque.Make (Some 4) [21; 23]%Z)).
Proof.
  intros self. split.
  - destruct (clear_deletes_listed_positions self [0; 2]%Z (Some [-1]%Z))
      as (Hok & _ & Hslots).
    + compute_done.
    + change (Forall (names_slot 2) [-1]%Z).
      constructor; [unfold names_slot; lia | constructor].
    + compute_done.
    + change (∀ v d, v ∈ [-1]%Z →
                History._hist self !! slot_of 2 v = Some d →
                Forall (λ i, 0 ≤ i < Z.of_nat (length (Deque.items d)))%Z
                       [0; 2]%Z).
      intros v d Hv%list_elem_of_singleton Hd. subst v.
      injection Hd as <-. simpl. repeat (constructor; [lia|]). constructor.
    + split; [exact Hok|]. split.
      * exact (Hslots 0 _ eq_refl).
      * exact (Hslots 1 _ eq_refl).
  - destruct (clear_deletes_listed_positions self [0; 2]%Z None)
      as (Hok & _ & Hslots).
    + compute_done.
    + change (Forall (names_slot 2) [0; 1]%Z).
      repeat (constructor; [unfold names_slot; lia|]). constructor.
    + compute_done.
    + change (∀ v d, v ∈ [0; 1]%Z →
                History._hist self !! slot_of 2 v = Some d →
                Forall (λ i, 0 ≤ i < Z.of_nat (length (Deque.items d)))%Z
                       [0; 2]%Z).
      intros v d Hv Hd.
      apply elem_of_cons in Hv as [->|Hv%list_elem_of_singleton];
        [|subst v]; injection Hd as <-; simpl;
        repeat (constructor; [lia|]); constructor.
    + split; [exact Hok|]. split.
      * exact (Hslots 0 _ eq_refl).
      * exact (Hslots 1 _ eq_refl).
Defined.

(** The positions must lie within every selected slot: with slots of
    four and two elements, [clear(index=[3, 0], variables=[1, 0])]
    raises at the shorter slot, which comes first, and the longer one is
    never reached. *)
Example clear_stops_at_short_slot :
  let self := History.Make [Deque.Make (Some 4) [10; 11; 12; 13]%Z;
                            Deque.Make (Some 4) [20; 21]%Z] in
  History.clear (Some [3; 0]%Z) (Some [1; 0]%Z) self
  = (Raise IndexError, self).
Proof. reflexivity. Qed.

(** C9 as stated fails when a position is listed twice: with
    [index=[1, 1]] the second deletion removes what was at position 2,
    so a slot [10, 11, 12, 13] ends as [10, 13] although only position 1
    was listed. *)
Lemma clear_repeated_position_counterexample :
  ¬ (∀ (self : History.t Z) (index : list Z),
       (∀ d, d ∈ History._hist self →
             Forall (λ i, 0 ≤ i < Z.of_nat (length (Deque.items d)))%Z index) →
       ∀ k d, History._hist self !! k = Some d →
         History._hist (History.clear (Some index) None self).2 !! k
         = Some (Deque.Make (Deque.maxlen d)
                   (surviving index (Deque.items d)))).
Proof.
  intros H.
  specialize (H (History.Make [Deque.Make (Some 4) [10; 11; 12; 13]%Z])
                [1; 1]%Z).
  assert (History._hist
            (History.clear (Some [1; 1]%Z) None
               (History.Make [Deque.Make (Some 4) [10; 11; 12; 13]%Z])).2 !! 0
          = Some (Deque.Make (Some 4) [10; 13]%Z)) as Hcode by reflexivity.
  rewrite (H) with (d := Deque.Make (Some 4) [10; 11; 12; 13]%Z) in Hcode.
  - vm_compute in Hcode. discriminate Hcode.
  - intros d Hd%list_elem_of_singleton. subst d. simpl.
    repeat (constructor; [lia|]). constructor.
  - reflexivity.
Qed.

(** Negative positions are accepted by [del] but are resolved against
    the slot as it is when their turn comes: [index=[-2, 3]] names the
    last two of four elements and deletes the last and the second. *)
Example clear_negative_position :
  History.clear (Some [-2; 3]%Z) None
    (History.Make [Deque.Make (Some 4) [10; 11; 12; 13]%Z])
  = (Ok tt, History.Make [Deque.Make (Some 4) [10; 12]%Z]).
Proof. reflexivity. Qed.

(** * Further properties of [PlugsMixin] *)

Section AccessFacts.

Context {St : Type}.
Import PlugsMixin.
Implicit Types (self : gmap string (@attr_value St)).
Implicit Types (ps : list (string * @plug St)).

Lemma dict_get_missing {V} (d : list (string * V)) k :
  k ∉ d.*1 → dict_get d k = Raise KeyError.
Proof.
  induction d as [|[k' v] d IH]; simpl; intros Hk; [reflexivity|].
  apply not_elem_of_cons in Hk as [Hne Hk].
  destruct (String.eqb_spec k' k) as [->|_]; [contradiction | auto].
Qed.

(** Attachments read like attributes: a name that the host's own name
    space does not know and that the dict of plugs binds evaluates to the
    plug. *)
Theorem getattr_finds_plug depth self ps name p :
  2 ≤ depth →
  self !! "_plugs" = Some (APlugs ps) →
  self !! name = None →
  dict_get ps name = Ok p →
  getattr depth self name = Ok (Attached p).
Proof.
  intros Hdepth Hps Hname Hget. destruct depth as [|[|depth]]; [lia..|].
  rewrite getattr_unfold, Hname, (getattr_plugs_set _ _ _ Hps). simpl.
  rewrite Hget. reflexivity.
Qed.

Lemma getattr_unbound depth self ps name :
  2 ≤ depth →
  self !! "_plugs" = Some (APlugs ps) →
  self !! name = None →
  name ∉ ps.*1 →
  getattr depth self name = Raise AttributeError.
Proof.
  intros Hdepth Hps Hname Hout. destruct depth as [|[|depth]]; [lia..|].
  rewrite getattr_unfold, Hname, (getattr_plugs_set _ _ _ Hps). simpl.
  rewrite dict_get_missing by exact Hout. reflexivity.
Qed.

(** A name bound nowhere raises [AttributeError]: the [KeyError] of the
    dict does not reach the caller. *)
Theorem getattr_unknown_name depth self ps name :
  2 ≤ depth →
  self !! "_plugs" = Some (APlugs ps) →
  self !! name = None →
  name ∉ ps.*1 →
  getattr depth self name = Raise AttributeError.
Proof. apply getattr_unbound. Qed.

Lemma gather_from (pre post : list (@callable St)) ps :
  foldl (λ '(pre_funcs, post_funcs) '(name, plug),
           (match pre_hooks plug !! name with
            | Some f => pre_funcs ++ [f]
            | None => pre_funcs
            end,
            match post_hooks plug !! name with
            | Some f => post_funcs ++ [f]
            | None => post_funcs
            end))
        (pre, post) ps
  = (pre ++ own_pre ps, post ++ own_post ps).
Proof.
  revert pre post. induction ps as [|[n p] ps IH]; intros pre post; simpl.
  - by rewrite !app_nil_r.
  - rewrite IH.
    destruct (pre_hooks p !! n), (post_hooks p !! n); simpl;
      by rewrite <- ?app_assoc.
Qed.

(** The loop of [__getattribute__] as a function of the dict alone. *)
Lemma gather_own name ps : gather name ps = (own_pre ps, own_post ps).
Proof. unfold gather. by rewrite gather_from. Qed.

Lemma getattr_method depth self ps name f :
  2 ≤ depth →
  self !! "_plugs" = Some (APlugs ps) →
  self !! name = Some (AFunc f) →
  getattr depth self name
  = Ok (match own_pre ps, own_post ps with
        | [], [] => Plain (AFunc f)
        | pre_funcs, post_funcs => Hooked f pre_funcs post_funcs
        end).
Proof.
  intros Hdepth Hps Hname. destruct depth as [|[|depth]]; [lia..|].
  rewrite getattr_unfold, Hname, (getattr_plugs_set _ _ _ Hps). simpl.
  rewrite gather_own.
  destruct (own_pre ps), (own_post ps); reflexivity.
Qed.

(** Accessing a callable member yields the member itself when no plug
    has a hook under its own key, and otherwise a wrapper around it whose
    hook lists follow the insertion order of the plugs. *)
Theorem getattr_callable depth self ps name f :
  2 ≤ depth →
  self !! "_plugs" = Some (APlugs ps) →
  self !! name = Some (AFunc f) →
  getattr depth self name
  = Ok (match own_pre ps, own_post ps with
        | [], [] => Plain (AFunc f)
        | pre_funcs, post_funcs => Hooked f pre_funcs post_funcs
        end).
Proof. apply getattr_method. Qed.

(** A wrapper is not tied to the member it was obtained for: when one
    callable member comes back wrapped, every callable member of the host
    comes back wrapped with the same hooks. *)
Theorem hooks_wrap_every_callable depth self ps name f pre_funcs post_funcs
    name' f' :
  2 ≤ depth →
  self !! "_plugs" = Some (APlugs ps) →
  getattr depth self name = Ok (Hooked f pre_funcs post_funcs) →
  self !! name' = Some (AFunc f') →
  getattr depth self name' = Ok (Hooked f' pre_funcs post_funcs).
Proof.
  intros Hdepth Hps Hwrapped Hname'.
  rewrite (getattr_method depth self ps name' f' Hdepth Hps Hname').
  destruct (self !! name) as [[v|g|qs]|] eqn:Hname.
  - destruct depth as [|depth]; [lia|].
    rewrite getattr_unfold, Hname in Hwrapped. discriminate.
  - rewrite (getattr_method depth self ps name g Hdepth Hps Hname)
      in Hwrapped.
    destruct (own_pre ps), (own_post ps); try discriminate Hwrapped;
      injection Hwrapped as <- <- <-; reflexivity.
  - destruct depth as [|depth]; [lia|].
    rewrite getattr_unfold, Hname in Hwrapped. discriminate.
  - destruct depth as [|[|depth]]; [lia..|].
    rewrite getattr_unfold, Hname, (getattr_plugs_set _ _ _ Hps)
      in Hwrapped.
    simpl in Hwrapped. destruct (dict_get ps name) as [p|[]]; discriminate.
Qed.

(** On a host whose dict of plugs is already in place, [__init__] does
    return, and discards every attachment: the dict is bound anew, empty,
    and the names of the former plugs no longer evaluate. *)
Theorem init_again_discards_plugs depth self ps :
  3 ≤ depth →
  self !! "_plugs" = Some (APlugs ps) →
  "_plugs" ∉ ps.*1 →
  let out := __init__ depth self in
  out = (Ok tt, <["_plugs" := APlugs []]> self)
  ∧ ∀ name, self !! name = None →
      getattr depth out.2 name = Raise AttributeError.
Proof.
  intros Hdepth Hps Hout.
  assert (dict_contains ps "_plugs" = false) as Hfree.
  { destruct (dict_contains ps "_plugs") eqn:Hc; [|reflexivity].
    apply dict_contains_elem in Hc. contradiction. }
  assert (__init__ depth self = (Ok tt, <["_plugs" := APlugs []]> self))
    as Heq.
  { destruct depth as [|[|[|depth]]]; [lia..|].
    unfold __init__, __setattr__.
    rewrite (getattr_plugs_set _ _ _ Hps). simpl. rewrite Hfree.
    reflexivity. }
  cbv zeta. rewrite Heq. split; [reflexivity|]. intros name Hname.
  cbn [snd]. apply (getattr_unbound depth _ []).
  - lia.
  - apply lookup_insert_eq.
  - rewrite lookup_insert_ne; [exact Hname|]. intros <-. congruence.
  - apply not_elem_of_nil.
Qed.

End AccessFacts.

(** ** The calls a wrapper makes *)

Section WrapperFacts.

Context {St : Type}.
Import PlugsMixin.
Implicit Types (w : @world St) (f attr : @callable St).
Implicit Types (fs pre post : list (@callable St)).

Lemma traced_ret {A} (a : A) w : traced [] w (ret a w).
Proof.
  exists []. simpl. rewrite app_nil_r. split; [reflexivity|].
  split; reflexivity.
Qed.

Lemma traced_bind {A B} names1 names2 (m : M (@world St) A)
    (k : A → M (@world St) B) w :
  traced names1 w (m w) →
  (∀ a w1, traced names2 w1 (k a w1)) →
  traced (names1 ++ names2) w (bind m k w).
Proof.
  intros (evs1 & Hlog1 & Hpre1 & Hall1) Hk. unfold bind.
  destruct (m w) as [[a|e] w1]; simpl in *.
  - destruct (Hk a w1) as (evs2 & Hlog2 & Hpre2 & Hall2).
    exists (evs1 ++ evs2). rewrite Hlog2, Hlog1, app_assoc.
    split; [reflexivity|]. rewrite omap_app, (Hall1 a eq_refl).
    split; [by apply prefix_app|]. intros b Hb. by rewrite (Hall2 b Hb).
  - exists evs1. split; [exact Hlog1|].
    split; [by apply prefix_app_r | discriminate].
Qed.

Lemma traced_call f obj args kwargs w :
  traced [c_name f] w (call f obj args kwargs w).
Proof.
  exists [Called (c_name f) obj args kwargs].
  split; [apply call_log|]. split; reflexivity.
Qed.

Lemma traced_copy obj w : traced [] w (copy obj w).
Proof.
  unfold copy. destruct (w_heap w !! obj) as [s|].
  - exists [Copied obj (length (w_heap w))]. simpl.
    split; [reflexivity|]. split; reflexivity.
  - exists []. simpl. rewrite app_nil_r. split; [reflexivity|].
    split; [reflexivity | discriminate].
Qed.

Lemma traced_run_hooks fs obj args kwargs w :
  traced (c_name <$> fs) w (run_hooks fs obj args kwargs w).
Proof.
  revert obj w. induction fs as [|f fs IH]; intros obj w; simpl.
  - apply traced_ret.
  - apply (traced_bind [c_name f]); [apply traced_call | intros; apply IH].
Qed.

(** Whatever the number of hooks, a hooked call calls the pre-hooks in
    the order of their list, then the wrapped callable, then the
    post-hooks in the reverse order of theirs, each one once; when the
    call raises, what was called is an initial part of that sequence, and
    when it returns, all of it. *)
Theorem combi_hook_call_sequence attr pre post obj args kwargs w :
  traced ((c_name <$> pre) ++ c_name attr :: (c_name <$> reverse post))
         w (combi_hook attr pre post obj args kwargs w).
Proof.
  unfold combi_hook.
  apply (traced_bind []).
  { destruct (negb _); [apply traced_copy | apply traced_ret]. }
  intros obj1 w1. apply traced_bind; [apply traced_run_hooks|].
  intros obj2 w2. apply (traced_bind [c_name attr]); [apply traced_call|].
  intros obj3 w3. apply traced_run_hooks.
Qed.




End WrapperFacts.

(** * Further properties of [History] *)

Section ShapeFacts.

Context {A : Type}.
Import History.
Implicit Types (self : History.t A) (d : Deque.t A).

(** A history built for [n > 0] variables, with a bound that is not
    negative and fits [Py_ssize_t] or with no bound ([None]), has [n]
    slots, all empty and all with that bound; the properties
    [variables], [history] and [history_max] report just that. *)
Theorem init_creates_empty_slots (history_ : option Z) (n : Z) :
  (0 < n)%Z →
  (∀ m, history_ = Some m → (0 ≤ m ≤ Deque.ssize_t_max)%Z) →
  ∃ self,
    __init__ history_ n = Ok self
    ∧ variables self = Z.to_nat n
    ∧ history self = Ok 0
    ∧ history_max self = Ok (Z.to_nat <$> history_)
    ∧ Forall (λ d, Deque.items d = []
                   ∧ Deque.maxlen d = Z.to_nat <$> history_) (_hist self).
Proof.
  intros Hn Hbound. unfold __init__.
  destruct (n <=? 0)%Z eqn:Hle; [lia|].
  assert (Deque.new history_ = Ok (Deque.Make (Z.to_nat <$> history_) []))
    as ->.
  { unfold Deque.new. destruct history_ as [m|]; [|reflexivity].
    specialize (Hbound m eq_refl).
    destruct (_ || _)%Z eqn:Hfit.
    { apply orb_true_iff in Hfit as [H|H]; unfold Deque.ssize_t_max in *; lia. }
    destruct (m <? 0)%Z eqn:Hneg; [lia | reflexivity]. }
  simpl. eexists. split; [reflexivity|].
  unfold variables, history, history_max. simpl.
  rewrite length_replicate. split; [reflexivity|].
  destruct (Z.to_nat n) as [|k] eqn:Hk; [lia|]. simpl.
  split; [reflexivity|]. split; [reflexivity|].
  constructor; [by split|]. by apply Forall_replicate.
Qed.

(** As soon as there is a slot to build, a bound is refused when it is
    negative, with [ValueError], and when it does not fit [Py_ssize_t],
    on either side, with [OverflowError]; the second test comes first. *)
Theorem init_refuses_bound (m n : Z) :
  (0 < n)%Z →
  ((- Deque.ssize_t_max - 1 ≤ m < 0)%Z →
   __init__ (A := A) (Some m) n = Raise ValueError)
  ∧ ((m < - Deque.ssize_t_max - 1 ∨ Deque.ssize_t_max < m)%Z →
     __init__ (A := A) (Some m) n = Raise OverflowError).
Proof.
  intros Hn. unfold __init__, Deque.new.
  destruct (n <=? 0)%Z eqn:Hle; [lia|]. split.
  - intros Hm. destruct (_ || _)%Z eqn:Hfit.
    { apply orb_true_iff in Hfit as [H|H]; lia. }
    destruct (m <? 0)%Z eqn:Hneg; [reflexivity | lia].
  - intros Hm. destruct (_ || _)%Z eqn:Hfit; [reflexivity|].
    apply orb_false_iff in Hfit as [H1 H2]. lia.
Qed.

(** With no variable the constructor returns whatever the bound, and
    the resulting history has no first slot for [history] and
    [history_max] to read: both raise [IndexError]. *)
Theorem init_without_variables (history_ : option Z) (n : Z) :
  (n ≤ 0)%Z →
  ∃ self,
    __init__ (A := A) history_ n = Ok self
    ∧ variables self = 0
    ∧ history self = Raise IndexError
    ∧ history_max self = Raise IndexError.
Proof.
  intros Hn. unfold __init__.
  destruct (n <=? 0)%Z eqn:Hle; [|lia].
  eexists. split; [reflexivity|]. auto.
Qed.

Lemma same_bound_refl d : same_bound d d.
Proof. by split. Qed.

Lemma same_bound_trans d1 d2 d3 :
  same_bound d1 d2 → same_bound d2 d3 → same_bound d1 d3.
Proof. intros [H1 B1] [H2 B2]. split; [congruence | auto]. Qed.

Lemma same_bound_slots_refl (h : list (Deque.t A)) : Forall2 same_bound h h.
Proof. apply Forall_Forall2_diag, Forall_forall. intros; apply same_bound_refl. Qed.

Lemma same_bound_slots_trans (h1 h2 h3 : list (Deque.t A)) :
  Forall2 same_bound h1 h2 → Forall2 same_bound h2 h3 →
  Forall2 same_bound h1 h3.
Proof. apply Forall2_trans, same_bound_trans. Qed.

Lemma deque_append_same_bound d x : same_bound d (Deque.append d x).
Proof.
  unfold same_bound, bounded, Deque.append.
  destruct d as [[m|] its]; simpl; [|by split].
  destruct (decide (m < length (its ++ [x]))) as [Hfull|Hroom]; simpl.
  - split; [reflexivity|]. intros Hb.
    rewrite length_drop. rewrite length_app in *. simpl in *. lia.
  - split; [reflexivity|]. intros _. lia.
Qed.

Lemma deque_clear_same_bound d : same_bound d (Deque.clear d).
Proof.
  unfold same_bound, bounded, Deque.clear. simpl. split; [reflexivity|].
  intros _. destruct (Deque.maxlen d); simpl; [lia | exact I].
Qed.

Lemma deque_delitem_same_bound d i d' :
  Deque.delitem d i = Ok d' → same_bound d d'.
Proof.
  unfold Deque.delitem.
  destruct (py_index (length (Deque.items d)) i) as [k|e] eqn:Hk;
    [|discriminate].
  simpl. intros [= <-]. apply py_index_lt in Hk.
  unfold same_bound, bounded. simpl. split; [reflexivity|].
  destruct (Deque.maxlen d) as [m|]; [|auto].
  rewrite length_delete by (by apply lookup_lt_is_Some). lia.
Qed.

Lemma on_slot_same_bound v (op : Deque.t A → result (Deque.t A)) self :
  (∀ d d', op d = Ok d' → same_bound d d') →
  Forall2 same_bound (_hist self) (_hist (on_slot v op self).2).
Proof.
  intros Hop. unfold on_slot.
  destruct (py_index _ v) as [k|e]; [|apply same_bound_slots_refl].
  destruct (_hist self !! k) as [d|] eqn:Hd; [|apply same_bound_slots_refl].
  destruct (op d) as [d'|e] eqn:Hd'; [|apply same_bound_slots_refl].
  simpl. rewrite <- (list_insert_id _ _ _ Hd) at 1.
  apply Forall2_insert; [apply same_bound_slots_refl | by apply Hop].
Qed.

Lemma for_each_same_bound {X} (xs : list X) (body : X → M (History.t A) unit)
    self :
  (∀ x self, Forall2 same_bound (_hist self) (_hist (body x self).2)) →
  Forall2 same_bound (_hist self) (_hist (for_each xs body self).2).
Proof.
  intros Hbody. revert self. induction xs as [|x xs IH]; intros self; simpl.
  - apply same_bound_slots_refl.
  - unfold bind. specialize (Hbody x self).
    destruct (body x self) as [[u|e] self1]; simpl in *; [|exact Hbody].
    eapply same_bound_slots_trans; [exact Hbody | apply IH].
Qed.

Lemma append_shape self (args : list A) variables_ :
  Forall2 same_bound (_hist self) (_hist (append args variables_ self).2).
Proof.
  unfold append.
  destruct (decide _); [apply same_bound_slots_refl|].
  apply for_each_same_bound. intros [i arg] self0.
  apply on_slot_same_bound. intros d d' [= <-].
  apply deque_append_same_bound.
Qed.

Lemma same_bound_bounded (h h' : list (Deque.t A)) :
  Forall2 same_bound h h' → Forall bounded h → Forall bounded h'.
Proof.
  induction 1 as [|d d' h h' [_ Hd] Hh IH]; intros Hb; [constructor|].
  apply Forall_cons in Hb as [Hbd Hbh]. constructor; auto.
Qed.

(** [append] never changes the shape of a history, whatever it is
    called with and whether it returns or raises: the number of slots is
    the same, every slot has the bound it had, and a slot that was within
    its bound still is. *)
Theorem append_keeps_shape self (args : list A) variables_ :
  let out := append args variables_ self in
  variables out.2 = variables self
  ∧ Forall2 same_bound (_hist self) (_hist out.2).
Proof.
  pose proof (append_shape self args variables_) as Hshape.
  split; [|exact Hshape]. unfold variables.
  symmetry. by apply Forall2_length in Hshape.
Qed.

(** The same for [clear], with or without [index]. *)
Theorem clear_keeps_shape self index variables_ :
  let out := clear index variables_ self in
  variables out.2 = variables self
  ∧ Forall2 same_bound (_hist self) (_hist out.2).
Proof.
  assert (Forall2 same_bound (_hist self)
            (_hist (clear index variables_ self).2)) as Hshape.
  { unfold clear. destruct index as [index|].
    - apply for_each_same_bound. intros v self0.
      apply for_each_same_bound. intros i self1.
      apply on_slot_same_bound. intros d d'. apply deque_delitem_same_bound.
    - apply for_each_same_bound. intros v self0.
      apply on_slot_same_bound. intros d d' [= <-].
      apply deque_clear_same_bound. }
  split; [|exact Hshape]. unfold variables.
  symmetry. by apply Forall2_length in Hshape.
Qed.

End ShapeFacts.

(** ** Appending *)

Section AppendFacts.

Context {A : Type}.
Import History.
Implicit Types (self : History.t A) (d : Deque.t A).

Lemma py_index_invalid n i :
  ¬ (- Z.of_nat n ≤ i < Z.of_nat n)%Z → py_index n i = Raise IndexError.
Proof.
  intros Hout. unfold py_index.
  destruct (i <? 0)%Z eqn:Hneg; destruct (_ && _)%Z eqn:Hin;
    try reflexivity; apply andb_true_iff in Hin as [H1 H2]; lia.
Qed.

Lemma for_each_app {S X} (xs ys : list X) (body : X → M S unit) (s : S) :
  for_each (xs ++ ys) body s
  = bind (for_each xs body) (λ _, for_each ys body) s.
Proof.
  revert s. induction xs as [|x xs IH]; intros s; simpl.
  - reflexivity.
  - unfold bind. destruct (body x s) as [[u|e] s1]; [|reflexivity].
    rewrite IH. reflexivity.
Qed.

(** Of the values passed for all slots, slot [k] is meant the [k]-th. *)
Lemma destined_range n k (s len : nat) (args : list A) :
  s + len ≤ n → length args = len →
  omap (λ '(i, arg), if decide (py_index n i = Ok k) then Some arg else None)
       (zip (Z.of_nat <$> seq s len) args)
  = if decide (s ≤ k) then option_list (args !! (k - s)) else [].
Proof.
  revert s args. induction len as [|len IH]; intros s [|x args] Hle Hlen;
    simpl in Hlen; try lia.
  - simpl. by destruct (decide (s ≤ k)).
  - simpl. rewrite py_index_nonneg by lia. rewrite Nat2Z.id.
    rewrite IH by lia.
    destruct (decide (Ok s = Ok k)) as [[= ->]|Hne].
    + rewrite decide_False by lia. rewrite decide_True by lia.
      by rewrite Nat.sub_diag.
    + assert (s ≠ k) by congruence.
      destruct (decide (s ≤ k)) as [Hsk|Hsk].
      * rewrite decide_True by lia.
        replace (k - s) with (S (k - S s)) by lia. reflexivity.
      * rewrite decide_False by lia. reflexivity.
Qed.

Lemma append_everywhere self (args : list A) :
  length args = variables self →
  append args None self
  = (Ok tt, Make (zip_with Deque.append (_hist self) args)).
Proof.
  intros Hlen. unfold append, selected.
  assert (length (range (variables self)) = variables self) as Hrange.
  { unfold range. by rewrite length_fmap, length_seq. }
  destruct (decide (length args ≠ length (range (variables self))))
    as [Hne|_]; [congruence|].
  destruct (append_loop (variables self) (zip (range (variables self)) args)
              self eq_refl) as (self' & Hrun & Hlen' & Hslots).
  { apply (Forall_zip_fst
             (λ i, - Z.of_nat (variables self) ≤ i
                   < Z.of_nat (variables self))%Z).
    apply Forall_forall. unfold range.
    intros i (k & -> & Hk%elem_of_seq)%list_elem_of_fmap. lia. }
  rewrite Hrun. f_equal. destruct self' as [h']. f_equal. simpl in *.
  apply list_eq. intros k. rewrite lookup_zip_with.
  destruct (_hist self !! k) as [d|] eqn:Hd; simpl.
  - rewrite (Hslots k d Hd). unfold range.
    rewrite (destined_range (variables self) k 0 (variables self) args)
      by (auto; lia).
    rewrite decide_True by lia. rewrite Nat.sub_0_r.
    apply lookup_lt_Some in Hd.
    destruct (lookup_lt_is_Some_2 args k) as [x Hx];
      [unfold variables in Hlen; lia|].
    rewrite Hx. reflexivity.
  - apply lookup_ge_None. apply lookup_ge_None in Hd.
    unfold variables in Hlen'. lia.
Qed.

(** With [variables] omitted and one value per slot, [append] returns
    and slot [k] has received the [k]-th value through the deque's
    [append]; nothing else has changed. *)
Theorem append_all_slots self (args : list A) :
  length args = variables self →
  append args None self
  = (Ok tt, Make (zip_with Deque.append (_hist self) args)).
Proof. apply append_everywhere. Qed.

Lemma keep_last_bounded d :
  bounded d → keep_last (Deque.maxlen d) (Deque.items d) = Deque.items d.
Proof.
  unfold bounded, keep_last. destruct (Deque.maxlen d) as [m|]; [|done].
  intros Hb. replace (length (Deque.items d) - m) with 0 by lia.
  apply drop_0.
Qed.

Lemma deque_append_keep_last d x :
  bounded d →
  Deque.append d x
  = Deque.Make (Deque.maxlen d)
      (keep_last (Deque.maxlen d) (Deque.items d ++ [x])).
Proof.
  unfold bounded, keep_last, Deque.append.
  destruct d as [[m|] its]; simpl; [|reflexivity]. intros Hb.
  rewrite length_app. simpl.
  destruct (decide (m < length its + 1)) as [Hfull|Hroom].
  - replace (length its + 1 - m) with 1 by lia. reflexivity.
  - replace (length its + 1 - m) with 0 by lia. reflexivity.
Qed.

Lemma keep_last_app m (l ys : list A) :
  keep_last m (keep_last m l ++ ys) = keep_last m (l ++ ys).
Proof.
  destruct m as [m|]; [|reflexivity]. unfold keep_last.
  rewrite !length_app, length_drop.
  destruct (decide (length l ≤ m)) as [Hle|Hgt].
  - replace (length l - m) with 0 by lia. rewrite drop_0.
    f_equal. lia.
  - replace (length l - (length l - m) + length ys - m) with (length ys)
      by lia.
    replace (length l + length ys - m) with (length l - m + length ys)
      by lia.
    rewrite <- (drop_drop (l ++ ys) (length ys) (length l - m)).
    rewrite (drop_app_le l ys (length l - m)) by lia. reflexivity.
Qed.

Lemma length_keep_last m (l : list A) :
  length (keep_last m l)
  = match m with Some m => length l `min` m | None => length l end.
Proof.
  destruct m as [m|]; [|reflexivity]. unfold keep_last.
  rewrite length_drop. lia.
Qed.

(** The state after a series of calls [append(...)], each with one
    value per slot. *)
Lemma appends_slots self (rounds : list (list A)) :
  Forall bounded (_hist self) →
  Forall (λ args, length args = variables self) rounds →
  let final := foldl (λ s args, (append args None s).2) self rounds in
  length (_hist final) = length (_hist self)
  ∧ ∀ k d, _hist self !! k = Some d →
      _hist final !! k
      = Some (Deque.Make (Deque.maxlen d)
                (keep_last (Deque.maxlen d)
                   (Deque.items d ++ omap (λ args, args !! k) rounds))).
Proof.
  intros Hb Hrounds. revert self Hb Hrounds.
  induction rounds as [|args rounds IH]; intros self Hb Hrounds; simpl.
  - split; [reflexivity|]. intros k d Hd. rewrite app_nil_r, Hd.
    rewrite Forall_forall in Hb.
    rewrite keep_last_bounded by (apply Hb; eapply list_elem_of_lookup_2, Hd).
    by destruct d.
  - apply Forall_cons in Hrounds as [Hargs Hrounds].
    pose proof (append_shape self args None) as Hshape.
    rewrite (append_everywhere self args Hargs) in *. simpl in Hshape.
    set (self1 := Make (zip_with Deque.append (_hist self) args)) in *.
    assert (length (_hist self1) = length (_hist self)) as Hlen1.
    { symmetry. by apply Forall2_length in Hshape. }
    destruct (IH self1) as [Hlen Hslots].
    + eapply same_bound_bounded; eauto.
    + eapply Forall_impl; [exact Hrounds|]. intros r Hr.
      unfold variables in *. cbv beta in *. rewrite Hlen1. exact Hr.
    + cbn [snd]. split; [congruence|]. intros k d Hd.
      pose proof (lookup_lt_Some _ _ _ Hd) as Hk.
      destruct (lookup_lt_is_Some_2 args k) as [x Hx];
        [unfold variables in Hargs; lia|].
      rewrite Hx. simpl.
      rewrite (Hslots k (Deque.append d x)).
      * rewrite Forall_forall in Hb.
        rewrite deque_append_keep_last
          by (apply Hb; eapply list_elem_of_lookup_2, Hd).
        simpl. rewrite keep_last_app, <- app_assoc. reflexivity.
      * unfold self1. simpl. rewrite lookup_zip_with, Hd, Hx. reflexivity.
Qed.

(** Oldest first out: after any number of calls [append(...)] with one
    value per slot, a slot that was within its bound holds the most
    recent elements of what it held followed by the values it was given,
    as many as its bound allows. *)
Theorem appends_keep_most_recent self (rounds : list (list A)) :
  Forall bounded (_hist self) →
  Forall (λ args, length args = variables self) rounds →
  let final := foldl (λ s args, (append args None s).2) self rounds in
  ∀ k d, _hist self !! k = Some d →
    _hist final !! k
    = Some (Deque.Make (Deque.maxlen d)
              (keep_last (Deque.maxlen d)
                 (Deque.items d ++ omap (λ args, args !! k) rounds))).
Proof. intros Hb Hrounds. apply appends_slots; assumption. Qed.

Lemma column_length (rounds : list (list A)) n k :
  Forall (λ args, length args = n) rounds → k < n →
  length (omap (λ args, args !! k) rounds) = length rounds.
Proof.
  intros Hrounds Hk. induction Hrounds as [|args rounds Hargs _ IH]; simpl.
  - reflexivity.
  - destruct (lookup_lt_is_Some_2 args k) as [x Hx]; [lia|].
    rewrite Hx. simpl. f_equal. exact IH.
Qed.

(** The slots of a history stay level: starting from empty slots with
    a common bound, after a series of calls [append(...)] with one value
    per slot every slot holds as many elements as there were calls,
    capped by the bound, and that is what [history] reports. *)
Theorem history_counts_appends self m (rounds : list (list A)) :
  Forall (λ d, Deque.items d = [] ∧ Deque.maxlen d = m) (_hist self) →
  Forall (λ args, length args = variables self) rounds →
  let final := foldl (λ s args, (append args None s).2) self rounds in
  let depth := match m with
               | Some m => length rounds `min` m
               | None => length rounds
               end in
  Forall (λ d, length (Deque.items d) = depth) (_hist final)
  ∧ (0 < variables self → history final = Ok depth).
Proof.
  intros Hempty Hrounds final depth.
  destruct (appends_slots self rounds) as [Hlen Hslots]; [|exact Hrounds|].
  { eapply Forall_impl; [exact Hempty|]. intros d [Hits Hm].
    unfold bounded. rewrite Hits. destruct (Deque.maxlen d); simpl; [lia|done]. }
  fold final in Hlen, Hslots.
  assert (Forall (λ d, length (Deque.items d) = depth) (_hist final)) as Hall.
  { apply Forall_lookup. intros k d' Hd'.
    destruct (lookup_lt_is_Some_2 (_hist self) k) as [d Hd].
    { apply lookup_lt_Some in Hd'. lia. }
    rewrite (Hslots k d Hd) in Hd'. injection Hd' as <-. simpl.
    rewrite Forall_forall in Hempty.
    destruct (Hempty d) as [Hits Hm]; [eapply list_elem_of_lookup_2, Hd|].
    rewrite Hits, Hm. simpl. rewrite length_keep_last.
    rewrite (column_length rounds (variables self) k Hrounds)
      by (by apply lookup_lt_Some in Hd).
    reflexivity. }
  split; [exact Hall|]. intros Hpos. unfold history.
  destruct (_hist final) as [|d0 rest] eqn:Hfinal.
  - unfold variables in Hpos. simpl in Hlen. lia.
  - apply Forall_cons in Hall as [-> _]. reflexivity.
Qed.

(** A selection that names a slot which does not exist is found out only
    when its turn comes: [append] raises [IndexError], and the values
    paired with the slots before it have been appended and stay. *)
Theorem append_bad_slot_is_partial self (args1 : list A) x args2 vs1 bad vs2 :
  length args1 = length vs1 →
  length args2 = length vs2 →
  Forall (λ i, - Z.of_nat (variables self) ≤ i
               < Z.of_nat (variables self))%Z vs1 →
  ¬ (- Z.of_nat (variables self) ≤ bad < Z.of_nat (variables self))%Z →
  append (args1 ++ x :: args2) (Some (vs1 ++ bad :: vs2)) self
  = (Raise IndexError, (append args1 (Some vs1) self).2).
Proof.
  intros Hlen1 Hlen2 Hvalid Hbad. unfold append, selected.
  destruct (decide (length (args1 ++ x :: args2)
                    ≠ length (vs1 ++ bad :: vs2))) as [Hne|_].
  { rewrite !length_app in Hne. simpl in Hne. lia. }
  destruct (decide (length args1 ≠ length vs1)) as [Hne|_]; [lia|].
  destruct (append_loop (variables self) (zip vs1 args1) self eq_refl
              (Forall_zip_fst
                 (λ i, - Z.of_nat (variables self) ≤ i
                       < Z.of_nat (variables self))%Z _ _ Hvalid))
    as (self1 & Hrun & Hn & _).
  rewrite (zip_with_app pair vs1 (bad :: vs2) args1 (x :: args2)) by lia.
  rewrite for_each_app. unfold bind at 1.
  rewrite Hrun. simpl.
  unfold bind, on_slot. rewrite Hn.
  rewrite py_index_invalid by exact Hbad. reflexivity.
Qed.

End AppendFacts.

(** ** Clearing *)

Section ClearMoreFacts.

Context {A : Type}.
Import History.
Implicit Types (self : History.t A) (d : Deque.t A).

Lemma clear_slots_loop vs ks self n :
  length (_hist self) = n →
  Forall2 (λ v k, py_index n v = Ok k) vs ks →
  ∃ self',
    for_each vs (λ v, on_slot v (λ d, Ok (Deque.clear d))) self = (Ok tt, self')
    ∧ length (_hist self') = n
    ∧ ∀ k d, _hist self !! k = Some d →
        _hist self' !! k
        = Some (if decide (k ∈ ks) then Deque.clear d else d).
Proof.
  intros Hn Hres. revert self Hn.
  induction Hres as [|v k vs ks Hvk Hres IH]; intros self Hn.
  - exists self. simpl. unfold ret. split; [reflexivity|].
    split; [exact Hn|]. intros k d Hd.
    destruct (decide (k ∈ [])) as [Hin|_]; [|exact Hd].
    by apply not_elem_of_nil in Hin.
  - pose proof (py_index_lt _ _ _ Hvk) as Hlt.
    destruct (lookup_lt_is_Some_2 (_hist self) k) as [dk Hdk]; [lia|].
    set (self1 := Make (<[k := Deque.clear dk]> (_hist self))).
    destruct (IH self1) as (self' & Hrun & Hlen & Hslots).
    { unfold self1. simpl. by rewrite length_insert. }
    exists self'. split; [|split; [exact Hlen|]].
    + simpl. unfold bind.
      rewrite (on_slot_ok v _ self k dk (Deque.clear dk));
        [exact Hrun | by rewrite Hn | exact Hdk | reflexivity].
    + intros k0 d Hd. destruct (decide (k0 = k)) as [->|Hne].
      * assert (d = dk) as -> by congruence.
        rewrite decide_True by apply list_elem_of_here.
        rewrite (Hslots k (Deque.clear dk)).
        -- by destruct (decide (k ∈ ks)).
        -- unfold self1. simpl. apply list_lookup_insert_eq. lia.
      * rewrite (Hslots k0 d).
        -- destruct (decide (k0 ∈ ks)) as [Hin|Hout].
           ++ rewrite decide_True by (by apply list_elem_of_further).
              reflexivity.
           ++ rewrite decide_False; [reflexivity|].
              intros [?|?]%elem_of_cons; contradiction.
        -- unfold self1. simpl.
           rewrite list_lookup_insert_ne; [exact Hd | congruence].
Qed.

(** Without [index], [clear] empties the slots the selection names,
    however often it names them, keeps their bound, and leaves the other
    slots as they are. *)
Theorem clear_without_index self variables_ ks :
  Forall2 (λ v k, py_index (variables self) v = Ok k)
          (selected self variables_) ks →
  let out := clear None variables_ self in
  out.1 = Ok tt
  ∧ length (_hist out.2) = length (_hist self)
  ∧ ∀ k d, _hist self !! k = Some d →
      _hist out.2 !! k
      = Some (if decide (k ∈ ks) then Deque.Make (Deque.maxlen d) [] else d).
Proof.
  intros Hres. unfold clear.
  destruct (clear_slots_loop (selected self variables_) ks self
              (variables self) eq_refl Hres) as (self' & Hrun & Hlen & Hslots).
  cbv zeta. rewrite Hrun. cbn [fst snd]. auto.
Qed.

(** [clear()] returns and empties every slot. *)
Theorem clear_everything self :
  clear None None self = (Ok tt, Make (Deque.clear <$> _hist self)).
Proof.
  unfold clear, selected.
  destruct (clear_slots_loop (range (variables self)) (seq 0 (variables self))
              self (variables self) eq_refl (range_resolves _))
    as (self' & Hrun & Hlen & Hslots).
  rewrite Hrun. f_equal. destruct self' as [h']. f_equal. simpl in *.
  apply list_eq. intros k. rewrite list_lookup_fmap.
  destruct (_hist self !! k) as [d|] eqn:Hd; simpl.
  - rewrite (Hslots k d Hd). rewrite decide_True; [reflexivity|].
    apply elem_of_seq. apply lookup_lt_Some in Hd. unfold variables. lia.
  - apply lookup_ge_None. apply lookup_ge_None in Hd.
    unfold variables in Hlen. lia.
Qed.

Lemma sort_reverse_sorted index :
  StronglySorted (flip Z.le) (sort_reverse index).
Proof.
  apply StronglySorted_merge_sort.
  - intros x y z. unfold flip. lia.
  - intros x y. unfold flip. lia.
Qed.

(** A position at or beyond the end of the first selected slot makes
    [clear] raise [IndexError] before it has deleted anything: the
    highest position is tried first. *)
Theorem clear_position_beyond_end self index variables_ v rest k d i :
  selected self variables_ = v :: rest →
  py_index (variables self) v = Ok k →
  _hist self !! k = Some d →
  i ∈ index →
  (Z.of_nat (length (Deque.items d)) ≤ i)%Z →
  clear (Some index) variables_ self = (Raise IndexError, self).
Proof.
  intros Hsel Hvk Hd Hi Hbeyond. unfold clear. rewrite Hsel.
  pose proof (sort_reverse_sorted index) as Hsorted.
  assert (i ∈ sort_reverse index) as Hi' by (by rewrite sort_reverse_perm).
  destruct (sort_reverse index) as [|j js]; [by apply not_elem_of_nil in Hi'|].
  assert (i ≤ j)%Z as Hij.
  { apply StronglySorted_inv in Hsorted as [_ Hbelow].
    apply elem_of_cons in Hi' as [->|Hin]; [lia|].
    rewrite Forall_forall in Hbelow. apply (Hbelow i Hin). }
  simpl. unfold bind, on_slot. unfold variables in Hvk. rewrite Hvk, Hd.
  unfold Deque.delitem. rewrite py_index_invalid by lia. reflexivity.
Qed.

End ClearMoreFacts.

(** * The further properties on concrete objects *)

Lemma getattr_finds_plug_witness :
  PlugsMixin.getattr 1000 Counter.host_one_pre "a"
  = Ok (PlugsMixin.Attached
          (PlugsMixin.Plug {[ "op" := Counter.a_pre ]} ∅)).
Proof.
  refine (getattr_finds_plug 1000 Counter.host_one_pre _ "a" _ _ _ _ _).
  - lia.
  - reflexivity.
  - reflexivity.
  - reflexivity.
Defined.

Lemma getattr_unknown_name_witness :
  PlugsMixin.getattr 1000 Counter.host_one_pre "b" = Raise AttributeError.
Proof.
  refine (getattr_unknown_name 1000 Counter.host_one_pre _ "b" _ _ _ _).
  - lia.
  - reflexivity.
  - reflexivity.
  - simpl. intros Hin%list_elem_of_singleton. discriminate Hin.
Defined.

Lemma getattr_callable_witness :
  PlugsMixin.getattr 1000 Counter.host_two_own_names "op"
  = Ok (PlugsMixin.Hooked Counter.op
          [Counter.a_pre; Counter.b_pre] [Counter.a_post; Counter.b_post]).
Proof.
  refine (getattr_callable 1000 Counter.host_two_own_names
            [("A", PlugsMixin.Plug {[ "A" := Counter.a_pre ]}
                     {[ "A" := Counter.a_post ]});
             ("B", PlugsMixin.Plug {[ "B" := Counter.b_pre ]}
                     {[ "B" := Counter.b_post ]})]
            "op" Counter.op _ _ _).
  - lia.
  - reflexivity.
  - reflexivity.
Defined.

Lemma hooks_wrap_every_callable_witness :
  PlugsMixin.getattr 1000 Faulty.host_two_methods "other"
  = Ok (PlugsMixin.Hooked Counter.op_inplace [Counter.a_pre] []).
Proof.
  refine (hooks_wrap_every_callable 1000 Faulty.host_two_methods _
            "op" Counter.op [Counter.a_pre] [] "other" Counter.op_inplace
            _ _ _ _).
  - lia.
  - reflexivity.
  - vm_compute. reflexivity.
  - reflexivity.
Defined.

Lemma init_again_discards_plugs_witness :
  PlugsMixin.__init__ 1000 Counter.host_one_pre
  = (Ok tt, <["_plugs" := PlugsMixin.APlugs []]> Counter.host_one_pre).
Proof.
  refine (proj1 (init_again_discards_plugs 1000 Counter.host_one_pre _ _ _ _)).
  - lia.
  - reflexivity.
  - simpl. intros Hin%list_elem_of_singleton. discriminate Hin.
Defined.


Lemma init_creates_empty_slots_witness :
  ∃ self : History.t Z,
    History.__init__ (Some 3%Z) 2 = Ok self
    ∧ History.variables self = 2
    ∧ History.history self = Ok 0
    ∧ History.history_max self = Ok (Some 3)
    ∧ Forall (λ d, Deque.items d = [] ∧ Deque.maxlen d = Some 3)
             (History._hist self).
Proof.
  refine (init_creates_empty_slots (Some 3%Z) 2 _ _).
  - lia.
  - intros m [= <-]. unfold Deque.ssize_t_max. lia.
Defined.

Lemma init_refuses_bound_witness :
  History.__init__ (A := Z) (Some (-1)%Z) 2 = Raise ValueError
  ∧ History.__init__ (A := Z) (Some (2 ^ 63)%Z) 2 = Raise OverflowError
  ∧ History.__init__ (A := Z) (Some (- 2 ^ 63 - 1)%Z) 2 = Raise OverflowError.
Proof.
  split; [|split].
  - refine (proj1 (init_refuses_bound (-1) 2 _) _);
      unfold Deque.ssize_t_max; lia.
  - refine (proj2 (init_refuses_bound (2 ^ 63) 2 _) _);
      unfold Deque.ssize_t_max; lia.
  - refine (proj2 (init_refuses_bound (- 2 ^ 63 - 1) 2 _) _);
      unfold Deque.ssize_t_max; lia.
Defined.

Lemma init_without_variables_witness :
  ∃ self : History.t Z,
    History.__init__ (Some (-1)%Z) 0 = Ok self
    ∧ History.variables self = 0
    ∧ History.history self = Raise IndexError
    ∧ History.history_max self = Raise IndexError.
Proof. refine (init_without_variables (Some (-1)%Z) 0 _). lia. Defined.

Lemma append_all_slots_witness :
  History.append [7; 8]%Z None
    (History.Make [Deque.Make (Some 3) [1; 2; 3]%Z; Deque.Make None [4]%Z])
  = (Ok tt,
     History.Make [Deque.Make (Some 3) [2; 3; 7]%Z; Deque.Make None [4; 8]%Z]).
Proof.
  refine (append_all_slots
            (History.Make [Deque.Make (Some 3) [1; 2; 3]%Z;
                           Deque.Make None [4]%Z]) [7; 8]%Z _).
  reflexivity.
Defined.

(** [History(history=3, variables=2)] after four calls [append(x, y)]:
    each slot holds the last three of its four values. *)
Lemma appends_keep_most_recent_witness :
  let self := History.Make [Deque.Make (Some 3) []; Deque.Make (Some 3) []] in
  let final := foldl (λ s args, (History.append args None s).2) self
                 [[1; 10]; [2; 20]; [3; 30]; [4; 40]]%Z in
  History._hist final !! 0 = Some (Deque.Make (Some 3) [2; 3; 4]%Z)
  ∧ History._hist final !! 1 = Some (Deque.Make (Some 3) [20; 30; 40]%Z).
Proof.
  intros self final.
  assert (Forall bounded (History._hist self)) as Hb.
  { repeat (constructor; [unfold bounded; simpl; lia|]). constructor. }
  assert (Forall (λ args : list Z, length args = History.variables self)
            [[1; 10]; [2; 20]; [3; 30]; [4; 40]]%Z) as Hr.
  { repeat (constructor; [reflexivity|]). constructor. }
  split.
  - exact (appends_keep_most_recent self _ Hb Hr 0 _ eq_refl).
  - exact (appends_keep_most_recent self _ Hb Hr 1 _ eq_refl).
Defined.

Lemma history_counts_appends_witness :
  let self := History.Make [Deque.Make (Some 3) []; Deque.Make (Some 3) []] in
  let final := foldl (λ s args, (History.append args None s).2) self
                 [[1; 10]; [2; 20]; [3; 30]; [4; 40]]%Z in
  Forall (λ d, length (Deque.items d) = 3) (History._hist final)
  ∧ (0 < History.variables self → History.history final = Ok 3).
Proof.
  intros self final.
  refine (history_counts_appends self (Some 3)
            [[1; 10]; [2; 20]; [3; 30]; [4; 40]]%Z _ _).
  - repeat (constructor; [by split|]). constructor.
  - repeat (constructor; [reflexivity|]). constructor.
Defined.

Lemma append_bad_slot_is_partial_witness :
  let self := History.Make [Deque.Make (Some 3) [1]%Z; Deque.Make (Some 3) []] in
  History.append [7; 8; 9]%Z (Some [0; 5; 1]%Z) self
  = (Raise IndexError,
     History.Make [Deque.Make (Some 3) [1; 7]%Z; Deque.Make (Some 3) []]).
Proof.
  intros self.
  refine (append_bad_slot_is_partial self [7]%Z 8%Z [9]%Z [0]%Z 5%Z [1]%Z
            _ _ _ _).
  - reflexivity.
  - reflexivity.
  - constructor; [|constructor].
    unfold self, History.variables. simpl. lia.
  - unfold self, History.variables. simpl. lia.
Defined.

Lemma clear_without_index_witness :
  let self := History.Make [Deque.Make (Some 3) [1; 2]%Z;
                            Deque.Make (Some 3) [3; 4]%Z] in
  let out := History.clear None (Some [-1; 1]%Z) self in
  out.1 = Ok tt
  ∧ History._hist out.2 !! 0 = Some (Deque.Make (Some 3) [1; 2]%Z)
  ∧ History._hist out.2 !! 1 = Some (Deque.Make (Some 3) []).
Proof.
  intros self.
  destruct (clear_without_index self (Some [-1; 1]%Z) [1; 1])
    as (Hok & _ & Hslots).
  - repeat (constructor; [reflexivity|]). constructor.
  - split; [exact Hok|]. split.
    + exact (Hslots 0 _ eq_refl).
    + exact (Hslots 1 _ eq_refl).
Defined.

Lemma clear_position_beyond_end_witness :
  let self := History.Make [Deque.Make (Some 4) [10; 11; 12; 13]%Z] in
  History.clear (Some [0; 4; 1]%Z) None self = (Raise IndexError, self).
Proof.
  intros self.
  refine (clear_position_beyond_end self [0; 4; 1]%Z None 0%Z [] 0
            (Deque.Make (Some 4) [10; 11; 12; 13]%Z) 4%Z _ _ _ _ _).
  - reflexivity.
  - reflexivity.
  - reflexivity.
  - apply list_elem_of_further, list_elem_of_here.
  - simpl. lia.
Defined.
